(** * pulse::Trie — a shallow embedding of [src/dsa/trie.h]

    The container is a tree of [Node]s, each owning its children through
    [std::unique_ptr] inside a [std::map<E, ...>].  Exclusive ownership makes
    the node graph a tree, so in [Module Trie] a node is embedded as a value:
    an optional payload and the children as an association list kept in key
    order (the order in which [std::map] iterates).  Methods that mutate
    through [Node*] become functions that return the updated node.

    Copying is a statement about which nodes two tries own.  For it,
    [Module Heap] embeds the same member functions on a store of nodes with
    explicit addresses, where allocation and destruction are visible, and
    [HeapFacts] relates the two embeddings. *)

From Stdlib Require Import Ascii String.
From stdpp Require Import base option list numbers strings pretty gmap.

Set Warnings "-clear-no-such-hyp".

(** ** The symbol type [E = K::value_type]

    The template needs [operator<] on [E] (for [std::map]) and
    [operator<<] to a stream (for the renderer).  [std::map] treats two keys
    as the same when neither is less than the other; under a strict total
    order this is equality. *)

Class Symbol (E : Type) := {
  sym_ltb : E → E → bool;
  sym_show : E → string;
  sym_ltb_irrefl : ∀ a, sym_ltb a a = false;
  sym_ltb_trans : ∀ a b c, sym_ltb a b = true → sym_ltb b c = true → sym_ltb a c = true;
  sym_ltb_total : ∀ a b, sym_ltb a b = false → sym_ltb b a = false → a = b;
}.

Definition sym_eqv `{Symbol E} (a b : E) : bool :=
  negb (sym_ltb a b) && negb (sym_ltb b a).

(** Equality of symbols is decided through the order, as [std::map] does. *)
#[export] Instance sym_eq_dec `{Symbol E} : EqDecision E.
Proof.
  intros a b. destruct (sym_ltb a b) eqn:Hab.
  - right. intros ->. by rewrite sym_ltb_irrefl in Hab.
  - destruct (sym_ltb b a) eqn:Hba.
    + right. intros ->. by rewrite sym_ltb_irrefl in Hba.
    + left. by apply sym_ltb_total.
Defined.

(** [char] symbols, compared by code point and printed as themselves.  (The
    order is that of [char] on the 7-bit characters, which is all the keys
    below use.) *)
Definition ascii_ltb (a b : ascii) : bool := (nat_of_ascii a <? nat_of_ascii b)%nat.

#[export, refine] Instance Symbol_ascii : Symbol ascii := {|
  sym_ltb := ascii_ltb;
  sym_show := fun c => String c EmptyString;
|}.
Proof.
  - intros a. apply Nat.ltb_irrefl.
  - unfold ascii_ltb. intros a b c ?%Nat.ltb_lt ?%Nat.ltb_lt. apply Nat.ltb_lt. lia.
  - unfold ascii_ltb. intros a b ?%Nat.ltb_ge ?%Nat.ltb_ge.
    rewrite <- (ascii_nat_embedding a), <- (ascii_nat_embedding b).
    f_equal. lia.
Defined.

(** [int] symbols, compared numerically and printed in decimal. *)
#[export, refine] Instance Symbol_Z : Symbol Z := {|
  sym_ltb := Z.ltb;
  sym_show := pretty;
|}.
Proof.
  - intros a. apply Z.ltb_irrefl.
  - intros a b c ?%Z.ltb_lt ?%Z.ltb_lt. apply Z.ltb_lt. lia.
  - intros a b ?%Z.ltb_ge ?%Z.ltb_ge. lia.
Defined.

Module Trie.

Section Children.
Context {E : Type} `{!Symbol E} {A : Type}.

(** ** [std::map<E, unique_ptr<Node>>] as a key-ordered association list

    The entries are kept in increasing key order, each key once; [A] is what
    an entry owns. *)

(** [m.find(c)] *)
Fixpoint map_find (c : E) (m : list (E * A)) : option A :=
  match m with
  | [] => None
  | (k, n) :: rest => if sym_eqv c k then Some n else map_find c rest
  end.

(** [m[c] = n]: the entry for [c] is created at its place in key order, or
    overwritten where it already exists. *)
Fixpoint map_set (c : E) (n : A) (m : list (E * A)) : list (E * A) :=
  match m with
  | [] => [(c, n)]
  | (k, n') :: rest =>
      if sym_ltb c k then (c, n) :: (k, n') :: rest
      else if sym_ltb k c then (k, n') :: map_set c n rest
      else (k, n) :: rest
  end.

(** Mutation of the node behind an iterator [it] obtained from [m.find(c)]:
    the entry keeps its place, the node it owns is replaced by its updated
    state. *)
Fixpoint map_update (c : E) (n : A) (m : list (E * A)) : list (E * A) :=
  match m with
  | [] => []
  | (k, n') :: rest =>
      if sym_eqv c k then (k, n) :: rest else (k, n') :: map_update c n rest
  end.

(** [m.erase(it)] for the iterator [it] obtained from [m.find(c)]. *)
Fixpoint map_erase (c : E) (m : list (E * A)) : list (E * A) :=
  match m with
  | [] => []
  | (k, n') :: rest =>
      if sym_eqv c k then rest else (k, n') :: map_erase c rest
  end.

(** Strictly increasing keys: what [std::map] maintains. *)
Fixpoint sorted_keys (m : list (E * A)) : bool :=
  match m with
  | [] => true
  | (k, _) :: rest =>
      match rest with
      | [] => true
      | (k', _) :: _ => sym_ltb k k'
      end && sorted_keys rest
  end.

End Children.

Section Container.
Context {E : Type} `{!Symbol E} {V : Type}.

(** ** Data model *)

(** [struct Node { std::optional<V> value; std::map<E, unique_ptr<Node>> children; }] *)
#[warnings="-register-all"]
Inductive Node : Type :=
  mkNode { value : option V; children : list (E * Node) }.

(** [class Trie { std::unique_ptr<Node> root_; }] *)
Record Trie : Type := mkTrie { root_ : Node }.

(** [std::make_unique<Node>()]: no value, no children. *)
Definition new_node : Node := mkNode None [].

(** [Trie::Trie() : root_(std::make_unique<Node>())] *)
Definition empty : Trie := mkTrie new_node.

Definition has_value (n : Node) : bool :=
  match value n with Some _ => true | None => false end.

Definition no_children (n : Node) : bool :=
  match children n with [] => true | _ :: _ => false end.

(** ** Operations *)

(** The loop of [insert] and of [operator[]]:
    [auto& child = curr->children[c]; if (!child) child = make_unique<Node>();]
    yields the existing child or a fresh one. *)
Definition child_or_new (c : E) (curr : Node) : Node :=
  match map_find c (children curr) with
  | Some child => child
  | None => new_node
  end.

(** [Trie::insert], from the node [curr] on. *)
Fixpoint insert_from (curr : Node) (key : list E) (v : V) : Node :=
  match key with
  | [] => mkNode (Some v) (children curr)
  | c :: rest =>
      mkNode (value curr)
             (map_set c (insert_from (child_or_new c curr) rest v) (children curr))
  end.

Definition insert (key : list E) (v : V) (t : Trie) : Trie :=
  mkTrie (insert_from (root_ t) key v).

(** [Trie::prefix] *)
Fixpoint prefix_from (curr : Node) (key : list E) : bool :=
  match key with
  | [] => true
  | c :: rest =>
      match map_find c (children curr) with
      | Some child => prefix_from child rest
      | None => false
      end
  end.

Definition prefix (key : list E) (t : Trie) : bool := prefix_from (root_ t) key.

(** [Trie::match] *)
Fixpoint match_from (curr : Node) (key : list E) : bool :=
  match key with
  | [] => has_value curr
  | c :: rest =>
      match map_find c (children curr) with
      | Some child => match_from child rest
      | None => false
      end
  end.

Definition match_ (key : list E) (t : Trie) : bool := match_from (root_ t) key.

(** [Trie::get]; [None] is the null pointer, [Some v] a pointer to the
    stored [v]. *)
Fixpoint get_from (curr : Node) (key : list E) : option V :=
  match key with
  | [] => match value curr with Some v => Some v | None => None end
  | c :: rest =>
      match map_find c (children curr) with
      | Some child => get_from child rest
      | None => None
      end
  end.

Definition get (key : list E) (t : Trie) : option V := get_from (root_ t) key.

(** [Trie::operator[]]: the walk of [insert], creating the missing nodes, and
    then [return *curr->value;].  The second component is what the
    dereferenced slot holds: [None] stands for the dereference of an
    [optional] that holds no value, which C++ leaves undefined. *)
Fixpoint index_from (curr : Node) (key : list E) : Node * option V :=
  match key with
  | [] => (curr, value curr)
  | c :: rest =>
      let '(child, slot) := index_from (child_or_new c curr) rest in
      (mkNode (value curr) (map_set c child (children curr)), slot)
  end.

Definition operator_index (key : list E) (t : Trie) : Trie * option V :=
  let '(r, slot) := index_from (root_ t) key in (mkTrie r, slot).

(** [trie[key] = v]: assignment through the reference that [operator[]]
    returned.  The reference denotes the object inside the terminal node's
    [optional]; there is one only when the slot holds a value. *)
Fixpoint store_from (curr : Node) (key : list E) (v : V) : Node :=
  match key with
  | [] => mkNode (Some v) (children curr)
  | c :: rest =>
      match map_find c (children curr) with
      | Some child => mkNode (value curr) (map_update c (store_from child rest v) (children curr))
      | None => curr
      end
  end.

Definition index_assign (key : list E) (v : V) (t : Trie) : option Trie :=
  let '(t', slot) := operator_index key t in
  match slot with
  | Some _ => Some (mkTrie (store_from (root_ t') key v))
  | None => None
  end.

(** The recursive lambda [remove] of [Trie::erase]; the result pairs the
    returned flag with the node after the call. *)
Fixpoint remove (node : Node) (key : list E) : bool * Node :=
  match key with
  | [] =>
      match value node with
      | None => (false, node)
      | Some _ => (true, mkNode None (children node))
      end
  | c :: rest =>
      match map_find c (children node) with
      | None => (false, node)
      | Some child =>
          let '(removed, child') := remove child rest in
          if removed && negb (has_value child') && no_children child'
          then (removed, mkNode (value node) (map_erase c (children node)))
          else (removed, mkNode (value node) (map_update c child' (children node)))
      end
  end.

Definition erase (key : list E) (t : Trie) : bool * Trie :=
  let '(removed, r) := remove (root_ t) key in (removed, mkTrie r).

(** Modelled from the spec: [CloneNode], which the loop of [clone] calls on
    every child, is declared nowhere under src/.  The spec describes clone
    as a "full recursive duplication of the node graph and all stored
    values", so the call is read as [clone] itself.  Children are never null
    ([insert] and [operator[]] fill a new entry at once), so the null test
    of the source only concerns a null argument, which no caller passes. *)
Fixpoint clone (node : Node) : Node :=
  match node with
  | mkNode v cs =>
      mkNode v
        (fold_left (fun acc '(c, child) => map_set c (clone child) acc) cs [])
  end.

(** ** The renderer [to_string] *)

(** [lines.back().append(s)] on the vector of lines; the vector is never
    empty where the renderer appends (a line is always opened first). *)
Fixpoint back_append (lines : list string) (s : string) : list string :=
  match lines with
  | [] => []
  | [line] => [line +:+ s]
  | line :: rest => line :: back_append rest s
  end.

(** [lines.back()] *)
Definition back (lines : list string) : string := List.last lines "".

(** [std::string(n, ' ')] *)
Fixpoint spaces (n : nat) : string :=
  match n with
  | O => ""
  | S n' => String " " (spaces n')
  end.

(** [s[i] = ch] for an index inside the string. *)
Fixpoint string_set (i : nat) (ch : ascii) (s : string) : string :=
  match s, i with
  | EmptyString, _ => EmptyString
  | String _ s', O => String ch s'
  | String a s', S i' => String a (string_set i' ch s')
  end.

(** The loop [for (size_t bar : relatives) if (bar < anchor) prefix[bar] = '|';]
    over [std::string prefix(anchor, ' ')]. *)
Definition branch_prefix (anchor : nat) (relatives : list nat) : string :=
  fold_left (fun prefix bar => if bar <? anchor then string_set bar "|" prefix else prefix)
            relatives (spaces anchor).

(** The text appended for a node reached by symbol [key]. *)
Definition label (node : Node) (key : E) : string :=
  if has_value node then "(" +:+ sym_show key +:+ ")" else sym_show key.

(** The [for] loop over [node->children] inside the lambda [partial], with
    its locals [first] and [children] (here [count]) and the by-value copy
    of [relatives] that it pops from; [self] is the lambda itself, [anchor]
    the column fixed before the loop and [total] is
    [node->children.size()]. *)
Definition children_loop
    (self : Node → E → list nat → list string → list string)
    (anchor total : nat) :=
  fix loop (l : list (E * Node)) (first : bool) (count : nat)
           (relatives : list nat) (lines : list string) {struct l} : list string :=
    match l with
    | [] => lines
    | (c, child) :: rest =>
        let count := S count in
        if first then
          let lines := back_append lines "-" in
          loop rest false count relatives (self child c relatives lines)
        else
          let lines := lines ++ [""] in
          let relatives :=
            if count =? total then removelast relatives else relatives in
          let prefix := branch_prefix anchor relatives in
          let lines := back_append lines (prefix +:+ "`-") in
          loop rest false count relatives (self child c relatives lines)
    end.

(** The recursive lambda [partial].  [lines] is captured by reference, hence
    threaded through; [relatives] is passed by value, so each call works on
    its own copy. *)
Fixpoint partial (node : Node) (key : E) (relatives : list nat)
    (lines : list string) {struct node} : list string :=
  match node with
  | mkNode v cs =>
      let lines := back_append lines (label (mkNode v cs) key) in
      match cs with
      | [] => lines
      | _ :: _ =>
          let anchor := String.length (back lines) in
          let total := length cs in
          let relatives := if 1 <? total then relatives ++ [anchor] else relatives in
          children_loop partial anchor total cs true 0 relatives lines
      end
  end.

(** The one-character string ["\n"]. *)
Definition newline : string := String (ascii_of_nat 10) EmptyString.

(** [out.pop_back()] *)
Fixpoint pop_back (s : string) : string :=
  match s with
  | EmptyString => EmptyString
  | String _ EmptyString => EmptyString
  | String a s' => String a (pop_back s')
  end.

(** [to_string(const Trie&)].  The size computed for [out.reserve] only
    affects capacity and is left out. *)
Definition to_string (trie : Trie) : string :=
  match children (root_ trie) with
  | [] => ""
  | _ :: _ =>
      let lines :=
        fold_left (fun lines '(key, node) => partial node key [] (lines ++ [""]))
                  (children (root_ trie)) [] in
      let out := fold_left (fun out line => out +:+ line +:+ newline) lines "" in
      match out with
      | EmptyString => out
      | String _ _ => pop_back out
      end
  end.

(** ** The renderer as the specification words it

    The specification pops a multi-child node's anchor "after the last
    child of a multi-child node is rendered".  The loop below differs from
    [children_loop] in that one place; everything else is as in the
    source. *)
Definition children_loop_as_specified
    (self : Node → E → list nat → list string → list string)
    (anchor total : nat) :=
  fix loop (l : list (E * Node)) (first : bool) (count : nat)
           (relatives : list nat) (lines : list string) {struct l} : list string :=
    match l with
    | [] => lines
    | (c, child) :: rest =>
        let count := S count in
        if first then
          let lines := back_append lines "-" in
          loop rest false count relatives (self child c relatives lines)
        else
          let lines := lines ++ [""] in
          let prefix := branch_prefix anchor relatives in
          let lines := back_append lines (prefix +:+ "`-") in
          let lines := self child c relatives lines in
          let relatives :=
            if count =? total then removelast relatives else relatives in
          loop rest false count relatives lines
    end.

Fixpoint partial_as_specified (node : Node) (key : E) (relatives : list nat)
    (lines : list string) {struct node} : list string :=
  match node with
  | mkNode v cs =>
      let lines := back_append lines (label (mkNode v cs) key) in
      match cs with
      | [] => lines
      | _ :: _ =>
          let anchor := String.length (back lines) in
          let total := length cs in
          let relatives := if 1 <? total then relatives ++ [anchor] else relatives in
          children_loop_as_specified partial_as_specified anchor total cs true 0 relatives lines
      end
  end.

Definition to_string_as_specified (trie : Trie) : string :=
  match children (root_ trie) with
  | [] => ""
  | _ :: _ =>
      let lines :=
        fold_left (fun lines '(key, node) => partial_as_specified node key [] (lines ++ [""]))
                  (children (root_ trie)) [] in
      let out := fold_left (fun out line => out +:+ line +:+ newline) lines "" in
      match out with
      | EmptyString => out
      | String _ _ => pop_back out
      end
  end.

(** ** The rule the source follows for the children after the first

    [open_] is the stack the node received, [anchor] its own column.  The
    child [(c, child)] is followed by [rest]; it is the last one when [rest]
    is empty, and then it is rendered with the anchor already popped.  Every
    earlier one is rendered with the anchor still on the stack. *)
Fixpoint later_children (anchor : nat) (open_ : list nat) (c : E) (child : Node)
    (rest : list (E * Node)) (lines : list string) : list string :=
  match rest with
  | [] =>
      partial child c open_
        (back_append (lines ++ [""]) (branch_prefix anchor open_ +:+ "`-"))
  | (c', child') :: rest' =>
      later_children anchor open_ c' child' rest'
        (partial child c (open_ ++ [anchor])
           (back_append (lines ++ [""])
              (branch_prefix anchor (open_ ++ [anchor]) +:+ "`-")))
  end.

(** ** Well-formedness of the representation

    A [std::map] holds each key once and iterates in increasing key order;
    on the association list this is strict sortedness of the keys, at every
    node. *)

Fixpoint wf_node (n : Node) : bool :=
  match n with
  | mkNode _ cs => sorted_keys cs && forallb (fun p => wf_node p.2) cs
  end.

Definition wf (t : Trie) : bool := wf_node (root_ t).

(** ** Structural minimality

    A node is meaningful when it carries a value or has a child; the
    invariant asks this of every node below the root. *)

Definition meaningful (n : Node) : bool := has_value n || negb (no_children n).

Fixpoint minimal_below (n : Node) : bool :=
  match n with
  | mkNode _ cs => forallb (fun p => meaningful p.2 && minimal_below p.2) cs
  end.

Definition minimal (t : Trie) : bool := minimal_below (root_ t).

(** ** Copying and sequences of operations *)

(** What [dst = other] leaves in [dst] when the two are different objects:
    [root_ = clone(other.root_.get())]. *)
Definition copy_of (other : Trie) : Trie := mkTrie (clone (root_ other)).

(** One call on the public interface.  Only the effect on the trie is
    recorded; the queries leave it alone. *)
Inductive Op : Type :=
  | OpInsert (key : list E) (v : V)
  | OpIndex (key : list E)
  | OpErase (key : list E)
  | OpCopy
  | OpPrefix (key : list E)
  | OpMatch (key : list E)
  | OpGet (key : list E)
  | OpToString.

Definition step (op : Op) (t : Trie) : Trie :=
  match op with
  | OpInsert key v => insert key v t
  | OpIndex key => (operator_index key t).1
  | OpErase key => (erase key t).2
  | OpCopy => copy_of t
  | OpPrefix _ | OpMatch _ | OpGet _ | OpToString => t
  end.

Fixpoint run (ops : list Op) (t : Trie) : Trie :=
  match ops with
  | [] => t
  | op :: rest => run rest (step op t)
  end.

(** A sequence respects the usage contract of [operator[]] when every
    indexed access names a key that holds a value at that moment. *)
Fixpoint in_contract (ops : list Op) (t : Trie) : bool :=
  match ops with
  | [] => true
  | op :: rest =>
      match op with
      | OpIndex key => match_ key t
      | _ => true
      end && in_contract rest (step op t)
  end.

End Container.
End Trie.

(** * The same container on an explicit free store

    Copying is about which nodes two tries own, so here the nodes live in a
    store and a [Trie] object holds the address of its root.
    [std::make_unique<Node>()] takes an address that is not in use;
    destroying a [unique_ptr] gives the address back. *)

Module Heap.
Import Trie.

Abbreviation loc := positive (only parsing).

Section Store.
Context {E : Type} `{!Symbol E} {V : Type}.

(** A [Node] in the store: the children map holds the addresses the
    [unique_ptr]s point to.  Looking up an address that is not allocated
    stands for following a dangling pointer; the functions below then give
    up, and in a [separated] state it does not happen. *)
Record HNode : Type := mkHNode { hvalue : option V; hchildren : list (E * loc) }.

(** The program state: the allocated nodes, and for every live [Trie] object
    (named by its own address) its member [root_]. *)
Record State : Type := mkState {
  nodes : gmap loc HNode;
  roots : gmap positive loc;
}.

(** [std::make_unique<Node>()] *)
Definition make_unique (σ : gmap loc HNode) : gmap loc HNode * loc :=
  let l := fresh (dom σ) in (<[l := mkHNode None []]> σ, l).

(** [Trie::insert] from the node at [curr] on. *)
Fixpoint h_insert_from (σ : gmap loc HNode) (curr : loc) (key : list E) (v : V)
    : gmap loc HNode :=
  match key with
  | [] =>
      match σ !! curr with
      | Some hn => <[curr := mkHNode (Some v) (hchildren hn)]> σ
      | None => σ
      end
  | c :: rest =>
      match σ !! curr with
      | Some hn =>
          match map_find c (hchildren hn) with
          | Some child => h_insert_from σ child rest v
          | None =>
              let '(σ1, child) := make_unique σ in
              let σ2 := <[curr := mkHNode (hvalue hn) (map_set c child (hchildren hn))]> σ1 in
              h_insert_from σ2 child rest v
          end
      | None => σ
      end
  end.

(** [Trie::prefix], [Trie::match] and [Trie::get] from the node at [curr]. *)
Fixpoint h_prefix_from (σ : gmap loc HNode) (curr : loc) (key : list E) : bool :=
  match key with
  | [] => true
  | c :: rest =>
      match σ !! curr ≫= λ hn, map_find c (hchildren hn) with
      | Some child => h_prefix_from σ child rest
      | None => false
      end
  end.

Fixpoint h_match_from (σ : gmap loc HNode) (curr : loc) (key : list E) : bool :=
  match key with
  | [] => match σ !! curr ≫= hvalue with Some _ => true | None => false end
  | c :: rest =>
      match σ !! curr ≫= λ hn, map_find c (hchildren hn) with
      | Some child => h_match_from σ child rest
      | None => false
      end
  end.

Fixpoint h_get_from (σ : gmap loc HNode) (curr : loc) (key : list E) : option V :=
  match key with
  | [] => σ !! curr ≫= hvalue
  | c :: rest =>
      match σ !! curr ≫= λ hn, map_find c (hchildren hn) with
      | Some child => h_get_from σ child rest
      | None => None
      end
  end.

(** [Trie::operator[]]: the walk of [insert] and the dereferenced slot. *)
Fixpoint h_index_from (σ : gmap loc HNode) (curr : loc) (key : list E)
    : gmap loc HNode * option V :=
  match key with
  | [] => (σ, σ !! curr ≫= hvalue)
  | c :: rest =>
      match σ !! curr with
      | Some hn =>
          match map_find c (hchildren hn) with
          | Some child => h_index_from σ child rest
          | None =>
              let '(σ1, child) := make_unique σ in
              let σ2 := <[curr := mkHNode (hvalue hn) (map_set c child (hchildren hn))]> σ1 in
              h_index_from σ2 child rest
          end
      | None => (σ, None)
      end
  end.

(** The lambda [remove] of [Trie::erase].  Erasing the map entry destroys the
    [unique_ptr] and with it the child node, which has no children then. *)
Fixpoint h_remove (σ : gmap loc HNode) (node : loc) (key : list E)
    : bool * gmap loc HNode :=
  match key with
  | [] =>
      match σ !! node with
      | Some hn =>
          match hvalue hn with
          | None => (false, σ)
          | Some _ => (true, <[node := mkHNode None (hchildren hn)]> σ)
          end
      | None => (false, σ)
      end
  | c :: rest =>
      match σ !! node with
      | Some hn =>
          match map_find c (hchildren hn) with
          | None => (false, σ)
          | Some child =>
              let '(removed, σ1) := h_remove σ child rest in
              match σ1 !! child with
              | Some hc =>
                  if removed && negb (bool_decide (is_Some (hvalue hc)))
                             && bool_decide (hchildren hc = [])
                  then (removed,
                        delete child
                          (<[node := mkHNode (hvalue hn) (map_erase c (hchildren hn))]> σ1))
                  else (removed, σ1)
              | None => (removed, σ1)
              end
          end
      | None => (false, σ)
      end
  end.

(** The loop [for (const auto& [c, child] : node->children)
    copy->children[c] = clone(child.get());] of [clone], writing to the node
    at [copy]; [self] is the recursive call. *)
Fixpoint clone_children
    (self : gmap loc HNode → loc → option (gmap loc HNode * loc))
    (copy : loc) (l : list (E * loc)) (σ : gmap loc HNode)
    : option (gmap loc HNode) :=
  match l with
  | [] => Some σ
  | (c, child) :: rest =>
      '(σ1, child') ← self σ child;
      hc ← σ1 !! copy;
      clone_children self copy rest
        (<[copy := mkHNode (hvalue hc) (map_set c child' (hchildren hc))]> σ1)
  end.

(** Modelled from the spec: [CloneNode], called on every child in the loop of
    [clone], is declared nowhere under src/; following the spec ("full
    recursive duplication of the node graph") it is read as [clone].  The
    recursion follows pointers, so it is bounded by [fuel]; [None] means the
    fuel ran out or a pointer dangles. *)
Fixpoint h_clone (fuel : nat) (σ : gmap loc HNode) (node : loc)
    : option (gmap loc HNode * loc) :=
  match fuel with
  | O => None
  | S fuel' =>
      hn ← σ !! node;
      let '(σ0, copy) := make_unique σ in
      let σ1 := <[copy := mkHNode (hvalue hn) []]> σ0 in
      σ' ← clone_children (h_clone fuel') copy (hchildren hn) σ1;
      Some (σ', copy)
  end.

(** Destruction of the children map of a node: every entry destroys the node
    it owns. *)
Fixpoint destroy_children (self : gmap loc HNode → loc → gmap loc HNode)
    (l : list (E * loc)) (σ : gmap loc HNode) : gmap loc HNode :=
  match l with
  | [] => σ
  | (_, child) :: rest => destroy_children self rest (self σ child)
  end.

(** Destruction of the node at [node] and, through its children map, of
    everything it owns. *)
Fixpoint h_destroy (fuel : nat) (σ : gmap loc HNode) (node : loc) : gmap loc HNode :=
  match fuel with
  | O => σ
  | S fuel' =>
      match σ !! node with
      | Some hn => delete node (destroy_children (h_destroy fuel') (hchildren hn) σ)
      | None => σ
      end
  end.

(** ** The member functions, on the [Trie] object at address [this] *)

Definition h_insert (this : positive) (key : list E) (v : V) (s : State) : State :=
  match roots s !! this with
  | Some r => mkState (h_insert_from (nodes s) r key v) (roots s)
  | None => s
  end.

Definition h_index (this : positive) (key : list E) (s : State) : State * option V :=
  match roots s !! this with
  | Some r => let '(σ, slot) := h_index_from (nodes s) r key in (mkState σ (roots s), slot)
  | None => (s, None)
  end.

Definition h_erase (this : positive) (key : list E) (s : State) : bool * State :=
  match roots s !! this with
  | Some r => let '(removed, σ) := h_remove (nodes s) r key in (removed, mkState σ (roots s))
  | None => (false, s)
  end.

Definition h_prefix (this : positive) (key : list E) (s : State) : bool :=
  match roots s !! this with Some r => h_prefix_from (nodes s) r key | None => false end.

Definition h_match (this : positive) (key : list E) (s : State) : bool :=
  match roots s !! this with Some r => h_match_from (nodes s) r key | None => false end.

Definition h_get (this : positive) (key : list E) (s : State) : option V :=
  match roots s !! this with Some r => h_get_from (nodes s) r key | None => None end.

(** [Trie& Trie::operator=(const Trie& other)]:
    [if (this != &other) root_ = clone(other.root_.get());].  The clone is
    built first; assigning it to [root_] destroys the tree [root_] owned.

    The copy constructor, [Trie(const Trie& other) : root_(clone(other))],
    hands [clone] the [Trie] itself where [clone] takes a [const Node*].
    That call has no meaning on this state (there is no conversion from a
    [Trie] to a node address), so the constructor has no embedding here; only
    the assignment, which passes [other.root_.get()], is modelled. *)
Definition copy_assign (fuel : nat) (this other : positive) (s : State) : option State :=
  if decide (this = other) then Some s
  else
    old ← roots s !! this;
    r ← roots s !! other;
    '(σ, copy) ← h_clone fuel (nodes s) r;
    Some (mkState (h_destroy fuel σ old) (<[this := copy]> (roots s))).

(** A mutating call and a query, as data. *)
Inductive Mutation : Type :=
  | MInsert (key : list E) (v : V)
  | MIndex (key : list E)
  | MErase (key : list E).

Inductive Query : Type :=
  | QPrefix (key : list E)
  | QMatch (key : list E)
  | QGet (key : list E).

Definition mutate (this : positive) (m : Mutation) (s : State) : State :=
  match m with
  | MInsert key v => h_insert this key v s
  | MIndex key => (h_index this key s).1
  | MErase key => (h_erase this key s).2
  end.

(** The answer of a query: a [bool], or the pointer [get] returns. *)
Definition ask (this : positive) (q : Query) (s : State) : bool + option V :=
  match q with
  | QPrefix key => inl (h_prefix this key s)
  | QMatch key => inl (h_match this key s)
  | QGet key => inr (h_get this key s)
  end.

(** ** The tree a store holds at an address

    [repr σ l n F]: the nodes reachable from [l] in [σ] form the tree [n],
    and [F] is the set of their addresses.  No address occurs twice: the
    graph is a tree, as the [unique_ptr]s make it. *)
Inductive repr (σ : gmap loc HNode) : loc → Node (E:=E) (V:=V) → gset loc → Prop :=
  | repr_node l o hcs cs F :
      σ !! l = Some (mkHNode o hcs) →
      reprs σ hcs cs F →
      l ∉ F →
      repr σ l (mkNode o cs) ({[l]} ∪ F)
with reprs (σ : gmap loc HNode)
    : list (E * loc) → list (E * Node (E:=E) (V:=V)) → gset loc → Prop :=
  | reprs_nil : reprs σ [] [] ∅
  | reprs_cons c l n hcs cs F1 F2 :
      repr σ l n F1 →
      reprs σ hcs cs F2 →
      F1 ## F2 →
      reprs σ ((c, l) :: hcs) ((c, n) :: cs) (F1 ∪ F2).

(** The number of nodes on the longest path down from a node. *)
Fixpoint height (n : Node (E:=E) (V:=V)) : nat :=
  match n with
  | mkNode _ cs => S (foldr (λ p h, height p.2 `max` h) 0 cs)
  end.

Scheme repr_mut := Minimality for repr Sort Prop
  with reprs_mut := Minimality for reprs Sort Prop.

(** What holds of the copy under construction: [hdone] is its children map so
    far, holding the clones [cdone]; [G] are the addresses taken for them;
    the store [σ0] the cloning started from is untouched. *)
Definition clone_inv (σ0 : gmap loc HNode) (copy : loc) (o : option V)
    (σa : gmap loc HNode) (hdone : list (E * loc))
    (cdone : list (E * Node (E:=E) (V:=V))) (G : gset loc) : Prop :=
  σa !! copy = Some (mkHNode o hdone) ∧ reprs σa hdone cdone G ∧
  (copy ∉ G) ∧ (G ## dom σ0) ∧ (∀ x, x ∈ dom σ0 → σa !! x = σ0 !! x) ∧
  (dom σa = dom σ0 ∪ {[copy]} ∪ G).

(** What cloning achieves with [fuel]: a copy of the tree, built from
    addresses that were free, with the store it started from untouched. *)
Definition clone_ok (fuel : nat) : Prop :=
  ∀ (σ : gmap loc HNode) (l : loc) (n : Node (E:=E) (V:=V)) (F : gset loc),
  repr σ l n F → wf_node n = true → height n ≤ fuel →
  ∃ σ' l' F',
    h_clone fuel σ l = Some (σ', l') ∧ repr σ' l' n F' ∧ F' ## dom σ ∧
    (∀ x, x ∈ dom σ → σ' !! x = σ !! x) ∧ dom σ' = dom σ ∪ F'.

(** A state in which every [Trie] object owns a well-formed tree and no two
    objects share a node.  [owned] assigns to each object its tree and the
    addresses it occupies. *)
Definition separated (s : State) (owned : gmap positive (Trie (E:=E) (V:=V) * gset loc)) : Prop :=
  (∀ this,
     match roots s !! this, owned !! this with
     | Some r, Some (t, F) => repr (nodes s) r (root_ t) F ∧ wf t = true
     | None, None => True
     | _, _ => False
     end) ∧
  (∀ t1 t2 o1 o2, t1 ≠ t2 → owned !! t1 = Some o1 → owned !! t2 = Some o2 → o1.2 ## o2.2).

Definition well_separated (s : State) : Prop := ∃ owned, separated s owned.

(** The state before any [Trie] exists, and [Trie::Trie()] for a new object
    at address [this]. *)
Definition init : State := mkState ∅ ∅.

Definition construct (this : positive) (s : State) : State :=
  let '(σ, r) := make_unique (nodes s) in mkState σ (<[this := r]> (roots s)).

Definition mutate_all (this : positive) (ms : list Mutation) (s : State) : State :=
  fold_left (λ s m, mutate this m s) ms s.

(** The effect of a mutation and the answer of a query on the tree itself. *)
Definition mutated (m : Mutation) (t : Trie (E:=E) (V:=V)) : Trie :=
  match m with
  | MInsert key v => insert key v t
  | MIndex key => (operator_index key t).1
  | MErase key => (erase key t).2
  end.

Definition answer (q : Query) (t : Trie (E:=E) (V:=V)) : bool + option V :=
  match q with
  | QPrefix key => inl (prefix key t)
  | QMatch key => inl (match_ key t)
  | QGet key => inr (get key t)
  end.

End Store.
End Heap.


(** * Concrete tries: [Trie<std::string, int>] *)

Module Scenarios.
Import Trie.

(** A [std::string] key as its span of [char]s. *)
Definition key_of (s : string) : list ascii := list_ascii_of_string s.

Definition StringTrie : Type := Trie (E:=ascii) (V:=Z).

(** The trie of the test [ToStringComplex]. *)
Definition worked_example : StringTrie :=
  fold_left (λ t '(s, v), insert (key_of s) v t)
    [("test", 1); ("tester", 2); ("testing", 3); ("tess", 4);
     ("alpha", 5); ("alphabet", 6); ("aloe", 7); ("altar", 8);
     ("alt", 9); ("alt", 10); ("world", 11); ("worm", 12)]%Z
    empty.

Definition worked_rendering : string :=
  String.concat newline
    [ "a-l-o-(e)";
      "   `-p-h-(a)-b-e-(t)";
      "   `-(t)-a-(r)";
      "t-e-s-(s)";
      "     `-(t)-e-(r)";
      "          `-i-n-(g)";
      "w-o-r-l-(d)";
      "     `-(m)" ].

(** ["hel" → 1] and ["hello" → 2], as in [RemovePrefixKey] and
    [RemoveLongerKey]. *)
Definition hel_hello : StringTrie :=
  insert (key_of "hello") 2%Z (insert (key_of "hel") 1%Z empty).

(** Keys ["ab"], ["acd"], ["ace"]: the last child of the branch at ["a"]
    branches again. *)
Definition nested_branch : StringTrie :=
  insert (key_of "ace") 3%Z (insert (key_of "acd") 2%Z (insert (key_of "ab") 1%Z empty)).

(** A run that stays within the contract of [operator[]]. *)
Definition contract_run : list (Op (E:=ascii) (V:=Z)) :=
  [ OpInsert (key_of "hel") 1%Z; OpInsert (key_of "hello") 2%Z;
    OpIndex (key_of "hel"); OpCopy; OpErase (key_of "hello");
    OpMatch (key_of "hel"); OpErase (key_of "hel") ].

(** Two tries on the store: the object at 1 is empty, the object at 2 holds
    ["hel" → 1]. *)
Definition two_tries : Heap.State (E:=ascii) (V:=Z) :=
  Heap.mutate 2 (Heap.MInsert (key_of "hel") 1%Z)
    (Heap.construct 2 (Heap.construct 1 Heap.init)).

End Scenarios.

(** * Quantities the renderer is measured against *)

Module Rendering.
Import Trie.

Section Measures.
Context {E : Type} `{!Symbol E} {V : Type}.

(** The vector [lines] of [to_string] when its loop over the children of the
    root has ended, before the lines are joined. *)
Definition render_lines (trie : Trie (E:=E) (V:=V)) : list string :=
  fold_left (fun lines '(key, node) => partial node key [] (lines ++ [""]))
            (children (root_ trie)) [].

(** The number of nodes without children in the subtree of a node. *)
Fixpoint leaves (n : Node (E:=E) (V:=V)) : nat :=
  match n with
  | mkNode _ cs =>
      match cs with
      | [] => 1
      | _ :: _ => list_sum (map (fun p => leaves p.2) cs)
      end
  end.

(** The number of nodes without children below the root. *)
Definition rows (trie : Trie (E:=E) (V:=V)) : nat :=
  list_sum (map (fun p => leaves p.2) (children (root_ trie))).

(** The text of a chain of symbols: the symbols joined by [-], the last one
    in parentheses. *)
Fixpoint chain_text (c : E) (rest : list E) : string :=
  match rest with
  | [] => "(" +:+ sym_show c +:+ ")"
  | c' :: rest' => sym_show c +:+ "-" +:+ chain_text c' rest'
  end.

(** Two nodes the renderer does not tell apart. *)
Definition same_rendering (n1 n2 : Node (E:=E) (V:=V)) : Prop :=
  ∀ sym rel (lines : list string), partial n1 sym rel lines = partial n2 sym rel lines.

Definition same_entries (p1 p2 : E * Node (E:=E) (V:=V)) : Prop :=
  p1.1 = p2.1 ∧ same_rendering p1.2 p2.2.

End Measures.
End Rendering.

(** * Properties of symbols and of the children map *)

Section SymbolFacts.
Context {E : Type} `{!Symbol E}.
Implicit Types c k : E.

Lemma sym_eqv_true c k : sym_eqv c k = true ↔ c = k.
Proof.
  unfold sym_eqv. split.
  - intros [H1 H2]%andb_true_iff.
    apply sym_ltb_total; by apply negb_true_iff.
  - intros ->. by rewrite sym_ltb_irrefl.
Qed.

Lemma sym_eqv_refl c : sym_eqv c c = true.
Proof. by apply sym_eqv_true. Qed.

Lemma sym_eqv_false c k : sym_eqv c k = false ↔ c ≠ k.
Proof.
  rewrite <- sym_eqv_true. destruct (sym_eqv c k); split; congruence.
Qed.

Lemma sym_ltb_neq c k : sym_ltb c k = true → c ≠ k.
Proof. intros H ->. by rewrite sym_ltb_irrefl in H. Qed.

Lemma sym_eqv_ne c k : c ≠ k → sym_eqv c k = false.
Proof. by intros ?%sym_eqv_false. Qed.

Lemma sym_eqv_sym c k : sym_eqv c k = sym_eqv k c.
Proof. unfold sym_eqv. apply andb_comm. Qed.

End SymbolFacts.

Module ChildMapFacts.
Import Trie.

Section Facts.
Context {E : Type} `{!Symbol E} {A : Type}.
Implicit Types (c k : E) (n : A) (m : list (E * A)).

Lemma map_find_set_eq c n m : map_find c (map_set c n m) = Some n.
Proof.
  induction m as [|[k n'] rest IH]; simpl.
  - by rewrite sym_eqv_refl.
  - destruct (sym_ltb c k) eqn:Hlt; simpl.
    + by rewrite sym_eqv_refl.
    + destruct (sym_ltb k c) eqn:Hgt; simpl.
      * unfold sym_eqv. rewrite Hlt, Hgt. simpl. apply IH.
      * unfold sym_eqv. by rewrite Hlt, Hgt.
Qed.

Lemma map_find_set_ne c c' n m :
  c ≠ c' → map_find c' (map_set c n m) = map_find c' m.
Proof.
  intros Hne. induction m as [|[k n'] rest IH]; simpl.
  - by rewrite (sym_eqv_ne c' c).
  - destruct (sym_ltb c k) eqn:Hlt; simpl.
    + by rewrite (sym_eqv_ne c' c).
    + destruct (sym_ltb k c) eqn:Hgt; simpl.
      * by rewrite IH.
      * assert (k = c) as -> by by apply sym_ltb_total.
        by rewrite (sym_eqv_ne c' c).
Qed.

Lemma map_find_update_eq c n m :
  is_Some (map_find c m) → map_find c (map_update c n m) = Some n.
Proof.
  induction m as [|[k n'] rest IH]; simpl; intros Hs.
  - by destruct Hs.
  - destruct (sym_eqv c k) eqn:Heq; simpl; rewrite Heq; auto.
Qed.

Lemma map_find_update_ne c c' n m :
  c ≠ c' → map_find c' (map_update c n m) = map_find c' m.
Proof.
  intros Hne. induction m as [|[k n'] rest IH]; simpl; [done|].
  destruct (sym_eqv c k) eqn:Heq; simpl.
  - apply sym_eqv_true in Heq as ->. by rewrite (sym_eqv_ne c' k).
  - by rewrite IH.
Qed.

Lemma map_update_id c n m : map_find c m = Some n → map_update c n m = m.
Proof.
  induction m as [|[k n'] rest IH]; simpl; [done|].
  destruct (sym_eqv c k); [congruence|]. intros ?. f_equal. auto.
Qed.

Lemma map_find_erase_ne c c' m :
  c ≠ c' → map_find c' (map_erase c m) = map_find c' m.
Proof.
  intros Hne. induction m as [|[k n'] rest IH]; simpl; [done|].
  destruct (sym_eqv c k) eqn:Heq; simpl.
  - apply sym_eqv_true in Heq as ->. by rewrite (sym_eqv_ne c' k).
  - by rewrite IH.
Qed.

(** In a sorted map every key after the head is larger than the head. *)
Lemma sorted_keys_cons k n k' n' m :
  sorted_keys ((k, n) :: (k', n') :: m) = sym_ltb k k' && sorted_keys ((k', n') :: m).
Proof. reflexivity. Qed.

Lemma sorted_keys_tail k n m : sorted_keys ((k, n) :: m) = true → sorted_keys m = true.
Proof.
  destruct m as [|[k' n'] m]; [done|].
  rewrite sorted_keys_cons. by intros [_ ?]%andb_true_iff.
Qed.

Lemma sorted_keys_head_lt k n m k' n' :
  sorted_keys ((k, n) :: m) = true → (k', n') ∈ m → sym_ltb k k' = true.
Proof.
  revert k n. induction m as [|[k1 n1] rest IH]; intros k n Hs Hin.
  - by apply elem_of_nil in Hin.
  - rewrite sorted_keys_cons in Hs. apply andb_true_iff in Hs as [Hlt Hs].
    apply elem_of_cons in Hin as [[= -> ->]|Hin]; [done|].
    eapply sym_ltb_trans; [exact Hlt|]. exact (IH k1 n1 Hs Hin).
Qed.

Lemma map_find_Some_elem c n m : map_find c m = Some n → (c, n) ∈ m.
Proof.
  induction m as [|[k n'] rest IH]; simpl; [done|].
  destruct (sym_eqv c k) eqn:Heq.
  - apply sym_eqv_true in Heq as ->. intros [= ->]. apply elem_of_cons. by left.
  - intros ?. apply elem_of_cons. right. auto.
Qed.

Lemma map_find_head_None k n m : sorted_keys ((k, n) :: m) = true → map_find k m = None.
Proof.
  intros Hs. destruct (map_find k m) as [n'|] eqn:Hf; [|done].
  apply map_find_Some_elem in Hf.
  pose proof (sorted_keys_head_lt _ _ _ _ _ Hs Hf) as Hlt.
  by rewrite sym_ltb_irrefl in Hlt.
Qed.

Lemma map_find_erase_eq c m : sorted_keys m = true → map_find c (map_erase c m) = None.
Proof.
  induction m as [|[k n'] rest IH]; intros Hs; simpl; [done|].
  destruct (sym_eqv c k) eqn:Heq; simpl.
  - apply sym_eqv_true in Heq as ->. exact (map_find_head_None _ _ _ Hs).
  - rewrite Heq. apply IH. exact (sorted_keys_tail _ _ _ Hs).
Qed.

(** Sortedness only looks at the keys. *)
Lemma sorted_keys_cons_iff k n m :
  sorted_keys ((k, n) :: m) = true ↔
  (∀ k' n', (k', n') ∈ m → sym_ltb k k' = true) ∧ sorted_keys m = true.
Proof.
  split.
  - intros Hs. split.
    + intros k' n'. exact (sorted_keys_head_lt _ _ _ _ _ Hs).
    + exact (sorted_keys_tail _ _ _ Hs).
  - intros [Hlt Hs]. destruct m as [|[k' n'] m]; [done|].
    rewrite sorted_keys_cons, Hs, (Hlt k' n'); [done|]. apply elem_of_cons. by left.
Qed.

Lemma elem_of_map_set k' n' c n m :
  (k', n') ∈ map_set c n m → (k', n') = (c, n) ∨ (k', n') ∈ m.
Proof.
  induction m as [|[k n1] rest IH]; simpl.
  - intros ?%list_elem_of_singleton. by left.
  - destruct (sym_ltb c k) eqn:Hlt; [|destruct (sym_ltb k c) eqn:Hgt].
    + intros [?|?]%elem_of_cons; [by left|by right].
    + intros [->|Hin]%elem_of_cons.
      * right. apply elem_of_cons. by left.
      * destruct (IH Hin) as [?|?]; [by left|]. right. apply elem_of_cons. by right.
    + assert (c = k) as -> by by apply sym_ltb_total.
      intros [?|?]%elem_of_cons; [by left|]. right. apply elem_of_cons. by right.
Qed.

Lemma elem_of_map_update k' n' c n m :
  (k', n') ∈ map_update c n m → (k', n') = (c, n) ∨ (k', n') ∈ m.
Proof.
  induction m as [|[k n1] rest IH]; simpl; [by right|].
  destruct (sym_eqv c k) eqn:Heq.
  - apply sym_eqv_true in Heq as ->.
    intros [?|?]%elem_of_cons; [by left|]. right. apply elem_of_cons. by right.
  - intros [->|Hin]%elem_of_cons.
    + right. apply elem_of_cons. by left.
    + destruct (IH Hin) as [?|?]; [by left|]. right. apply elem_of_cons. by right.
Qed.

Lemma elem_of_map_erase k' n' c m : (k', n') ∈ map_erase c m → (k', n') ∈ m.
Proof.
  induction m as [|[k n1] rest IH]; simpl; [done|].
  destruct (sym_eqv c k).
  - intros ?. apply elem_of_cons. by right.
  - intros [->|Hin]%elem_of_cons; apply elem_of_cons; [by left|right; auto].
Qed.

Lemma map_set_sorted c n m : sorted_keys m = true → sorted_keys (map_set c n m) = true.
Proof.
  induction m as [|[k n1] rest IH]; intros Hs; [done|]. simpl.
  destruct (sym_ltb c k) eqn:Hlt; [|destruct (sym_ltb k c) eqn:Hgt].
  - by rewrite sorted_keys_cons, Hlt, Hs.
  - apply sorted_keys_cons_iff in Hs as [Hall Hs].
    apply sorted_keys_cons_iff. split; [|auto].
    intros k' n' [[= -> ->]|Hin]%elem_of_map_set; eauto.
  - apply sorted_keys_cons_iff in Hs. by apply sorted_keys_cons_iff.
Qed.

Lemma sorted_keys_ext {B} m (m' : list (E * B)) :
  m.*1 = m'.*1 → sorted_keys m = sorted_keys m'.
Proof.
  revert m'. induction m as [|[k n] m IH]; intros [|[k' n'] m'] Hk; try done.
  injection Hk as -> Htl.
  destruct m as [|[k1 n1] m1], m' as [|[k1' n1'] m1']; try done.
  change (sym_ltb k' k1 && sorted_keys ((k1, n1) :: m1) =
          sym_ltb k' k1' && sorted_keys ((k1', n1') :: m1')).
  injection Htl as -> Htl.
  f_equal. apply IH. simpl. by f_equal.
Qed.

Lemma map_update_keys c n m : (map_update c n m).*1 = m.*1.
Proof.
  induction m as [|[k n1] rest IH]; [done|]. simpl.
  destruct (sym_eqv c k); simpl; by f_equal.
Qed.

Lemma map_update_sorted c n m : sorted_keys (map_update c n m) = sorted_keys m.
Proof. apply sorted_keys_ext, map_update_keys. Qed.

Lemma map_erase_sorted c m : sorted_keys m = true → sorted_keys (map_erase c m) = true.
Proof.
  induction m as [|[k n1] rest IH]; intros Hs; [done|]. simpl.
  apply sorted_keys_cons_iff in Hs as [Hall Hs].
  destruct (sym_eqv c k); [done|].
  apply sorted_keys_cons_iff. split; [|auto].
  intros k' n' Hin%elem_of_map_erase. eauto.
Qed.

Lemma map_set_id c n m : sorted_keys m = true → map_find c m = Some n → map_set c n m = m.
Proof.
  induction m as [|[k n1] rest IH]; intros Hs Hf; [done|]. simpl in Hf |- *.
  destruct (sym_eqv c k) eqn:Heq.
  - apply sym_eqv_true in Heq as ->. rewrite sym_ltb_irrefl. congruence.
  - destruct (sym_ltb c k) eqn:Hlt.
    + apply map_find_Some_elem in Hf.
      pose proof (sorted_keys_head_lt _ _ _ _ _ Hs Hf) as Hgt.
      pose proof (sym_ltb_trans _ _ _ Hlt Hgt) as Hcc.
      by rewrite sym_ltb_irrefl in Hcc.
    + destruct (sym_ltb k c) eqn:Hgt.
      * f_equal. apply IH; [|done]. exact (sorted_keys_tail _ _ _ Hs).
      * apply sym_eqv_false in Heq. destruct Heq. by apply sym_ltb_total.
Qed.

Lemma map_set_update c n m :
  sorted_keys m = true → is_Some (map_find c m) → map_set c n m = map_update c n m.
Proof.
  induction m as [|[k n1] rest IH]; intros Hs Hf; [by destruct Hf|]. simpl in Hf |- *.
  destruct (sym_eqv c k) eqn:Heq.
  - apply sym_eqv_true in Heq as ->. by rewrite sym_ltb_irrefl.
  - destruct Hf as [n' Hf]. destruct (sym_ltb c k) eqn:Hlt.
    + apply map_find_Some_elem in Hf.
      pose proof (sorted_keys_head_lt _ _ _ _ _ Hs Hf) as Hgt.
      pose proof (sym_ltb_trans _ _ _ Hlt Hgt) as Hcc.
      by rewrite sym_ltb_irrefl in Hcc.
    + destruct (sym_ltb k c) eqn:Hgt.
      * f_equal. apply IH; [|by eexists]. exact (sorted_keys_tail _ _ _ Hs).
      * apply sym_eqv_false in Heq. destruct Heq. by apply sym_ltb_total.
Qed.

Lemma map_set_snoc c n m :
  (∀ k' n', (k', n') ∈ m → sym_ltb k' c = true) → map_set c n m = m ++ [(c, n)].
Proof.
  induction m as [|[k n1] rest IH]; intros Hlt; [done|]. simpl.
  assert (sym_ltb k c = true) as Hkc by (apply (Hlt k n1), elem_of_cons; by left).
  destruct (sym_ltb c k) eqn:Hck.
  - pose proof (sym_ltb_trans _ _ _ Hkc Hck) as Hkk. by rewrite sym_ltb_irrefl in Hkk.
  - rewrite Hkc. f_equal. apply IH. intros k' n' Hin. apply (Hlt k' n'), elem_of_cons. by right.
Qed.

End Facts.
End ChildMapFacts.

(** * Properties of the container *)

Module TrieFacts.
Import Trie ChildMapFacts.

Section Theory.
Context {E : Type} `{!Symbol E} {V : Type}.
Implicit Types (c k : E) (key : list E) (n node child : Node (E:=E) (V:=V))
  (m cs : list (E * Node (E:=E) (V:=V))) (t : Trie (E:=E) (V:=V)) (v : V).

(** ** Well-formed nodes *)

Lemma Node_ind_children (P : Node (E:=E) (V:=V) → Prop) :
  (∀ o cs, (∀ c child, (c, child) ∈ cs → P child) → P (mkNode o cs)) →
  ∀ n, P n.
Proof.
  intros Hstep. fix IH 1. intros [o cs]. apply Hstep.
  assert (Forall (λ p, P p.2) cs) as Hall.
  { induction cs as [|[c ch] rest IHcs]; constructor; [apply IH|apply IHcs]. }
  clear IH. intros c child Hin.
  rewrite Forall_forall in Hall. exact (Hall (c, child) Hin).
Qed.

Lemma wf_node_iff n :
  wf_node n = true ↔
  sorted_keys (children n) = true ∧ ∀ c child, (c, child) ∈ children n → wf_node child = true.
Proof.
  destruct n as [o cs]. simpl. rewrite andb_true_iff, forallb_forall.
  split; intros [Hs Hall]; (split; [done|]).
  - intros c child Hin. apply (Hall (c, child)). by apply list_elem_of_In.
  - intros [c child] Hin. apply (Hall c child). by apply list_elem_of_In.
Qed.

Lemma wf_node_intro o cs :
  sorted_keys cs = true → (∀ c child, (c, child) ∈ cs → wf_node child = true) →
  wf_node (mkNode o cs) = true.
Proof. intros. by apply wf_node_iff. Qed.

Lemma wf_node_sorted n : wf_node n = true → sorted_keys (children n) = true.
Proof. by intros [? _]%wf_node_iff. Qed.

Lemma wf_node_child n c child :
  wf_node n = true → map_find c (children n) = Some child → wf_node child = true.
Proof.
  intros [_ Hall]%wf_node_iff Hf%map_find_Some_elem. eauto.
Qed.

Lemma wf_new_node : wf_node (new_node (E:=E) (V:=V)) = true.
Proof. reflexivity. Qed.

Lemma wf_child_or_new c n : wf_node n = true → wf_node (child_or_new c n) = true.
Proof.
  intros Hwf. unfold child_or_new.
  destruct (map_find c (children n)) eqn:Hf; [|done]. by eapply wf_node_child.
Qed.

Lemma wf_set_child n c child :
  wf_node n = true → wf_node child = true →
  wf_node (mkNode (value n) (map_set c child (children n))) = true.
Proof.
  intros [Hs Hall]%wf_node_iff Hc. apply wf_node_intro.
  - by apply map_set_sorted.
  - intros c' ch [[= -> ->]|Hin]%elem_of_map_set; eauto.
Qed.

Lemma wf_update_child n c child :
  wf_node n = true → wf_node child = true →
  wf_node (mkNode (value n) (map_update c child (children n))) = true.
Proof.
  intros [Hs Hall]%wf_node_iff Hc. apply wf_node_intro.
  - by rewrite map_update_sorted.
  - intros c' ch [[= -> ->]|Hin]%elem_of_map_update; eauto.
Qed.

Lemma wf_erase_child n c :
  wf_node n = true → wf_node (mkNode (value n) (map_erase c (children n))) = true.
Proof.
  intros [Hs Hall]%wf_node_iff. apply wf_node_intro.
  - by apply map_erase_sorted.
  - intros c' ch Hin%elem_of_map_erase. eauto.
Qed.

Lemma wf_node_value o n : wf_node (mkNode o (children n)) = wf_node n.
Proof. by destruct n. Qed.

Lemma wf_insert_from n key v : wf_node n = true → wf_node (insert_from n key v) = true.
Proof.
  revert n. induction key as [|c rest IH]; intros n Hwf; cbn [insert_from].
  - by rewrite wf_node_value.
  - apply wf_set_child; [done|]. apply IH. by apply wf_child_or_new.
Qed.

Lemma wf_index_from n key : wf_node n = true → wf_node (index_from n key).1 = true.
Proof.
  revert n. induction key as [|c rest IH]; intros n Hwf; simpl; [done|].
  pose proof (IH (child_or_new c n) (wf_child_or_new c n Hwf)) as Hc.
  destruct (index_from (child_or_new c n) rest) as [child slot]. simpl in *.
  by apply wf_set_child.
Qed.

Lemma wf_store_from n key v : wf_node n = true → wf_node (store_from n key v) = true.
Proof.
  revert n. induction key as [|c rest IH]; intros n Hwf; cbn [store_from].
  - by rewrite wf_node_value.
  - destruct (map_find c (children n)) as [child|] eqn:Hf; [|done].
    apply wf_update_child; [done|]. apply IH. by eapply wf_node_child.
Qed.

Lemma wf_remove n key : wf_node n = true → wf_node (remove n key).2 = true.
Proof.
  revert n. induction key as [|c rest IH]; intros n Hwf; cbn [remove].
  - destruct (value n); [|done]. cbn [snd]. by rewrite wf_node_value.
  - destruct (map_find c (children n)) as [child|] eqn:Hf; [|done].
    pose proof (IH child (wf_node_child _ _ _ Hwf Hf)) as Hc.
    destruct (remove child rest) as [removed child']. simpl in *.
    destruct (removed && negb (has_value child') && no_children child'); simpl.
    + by apply wf_erase_child.
    + by apply wf_update_child.
Qed.

(** ** Lookups after an insertion *)

Lemma get_insert_from n key v : get_from (insert_from n key v) key = Some v.
Proof.
  revert n. induction key as [|c rest IH]; intros n; simpl; [done|].
  by rewrite map_find_set_eq.
Qed.

Lemma match_get_from n key :
  match_from n key = match get_from n key with Some _ => true | None => false end.
Proof.
  revert n. induction key as [|c rest IH]; intros n; simpl.
  - unfold has_value. by destruct (value n).
  - destruct (map_find c (children n)); [apply IH|done].
Qed.

Lemma get_prefix_from n key : is_Some (get_from n key) → prefix_from n key = true.
Proof.
  revert n. induction key as [|c rest IH]; intros n; simpl; [done|].
  destruct (map_find c (children n)); [apply IH|by intros []].
Qed.

Lemma match_prefix_from n key : match_from n key = true → prefix_from n key = true.
Proof.
  rewrite match_get_from. intros Hm. apply get_prefix_from.
  by destruct (get_from n key).
Qed.

(** ** The recursive removal *)

(** A node without value and children answers no query. *)
Lemma get_from_bare n key :
  has_value n = false → no_children n = true → get_from n key = None.
Proof.
  unfold has_value, no_children. destruct key as [|c rest]; simpl.
  - by destruct (value n).
  - by destruct (children n).
Qed.

Lemma prefix_from_bare n c key : no_children n = true → prefix_from n (c :: key) = false.
Proof. unfold no_children. simpl. by destruct (children n). Qed.

Lemma prefix_from_bare_app n key c more :
  no_children n = true → prefix_from n (key ++ c :: more) = false.
Proof. destruct key; apply prefix_from_bare. Qed.

(** The flag is [false] exactly when there was no value to remove, and the
    node is then left as it was. *)
Lemma remove_flag n key : (remove n key).1 = match_from n key.
Proof.
  revert n. induction key as [|c rest IH]; intros n; simpl.
  - unfold has_value. by destruct (value n).
  - destruct (map_find c (children n)) as [child|]; [|done].
    rewrite <- IH. destruct (remove child rest) as [removed child']. simpl.
    by destruct (removed && negb (has_value child') && no_children child').
Qed.

Lemma remove_noop n key : match_from n key = false → remove n key = (false, n).
Proof.
  revert n. induction key as [|c rest IH]; intros n; simpl.
  - unfold has_value. by destruct (value n).
  - destruct (map_find c (children n)) as [child|] eqn:Hf; [|done].
    intros Hm. rewrite (IH _ Hm). simpl.
    rewrite (map_update_id _ _ _ Hf). by destruct n.
Qed.

Lemma get_remove_same n key :
  wf_node n = true → get_from (remove n key).2 key = None.
Proof.
  revert n. induction key as [|c rest IH]; intros n Hwf; simpl.
  - by destruct (value n) eqn:Hv; simpl; [|rewrite Hv].
  - destruct (map_find c (children n)) as [child|] eqn:Hf; simpl; [|by rewrite Hf].
    pose proof (IH child (wf_node_child _ _ _ Hwf Hf)) as Hc.
    destruct (remove child rest) as [removed child']. simpl in *.
    destruct (removed && negb (has_value child') && no_children child'); simpl.
    + rewrite map_find_erase_eq; [done|]. by apply wf_node_sorted.
    + rewrite map_find_update_eq; [done|]. by rewrite Hf.
Qed.

Lemma get_remove_other n key key' :
  wf_node n = true → key ≠ key' → get_from (remove n key).2 key' = get_from n key'.
Proof.
  revert n key'. induction key as [|c rest IH]; intros n key' Hwf Hne; simpl.
  - destruct key' as [|c' rest']; [done|]. by destruct (value n).
  - destruct (map_find c (children n)) as [child|] eqn:Hf; [|done].
    pose proof (IH child) as IHc.
    destruct (remove child rest) as [removed child']. simpl in IHc.
    destruct key' as [|c' rest'].
    { by destruct (removed && negb (has_value child') && no_children child'). }
    destruct (decide (c = c')) as [<-|Hc].
    + assert (rest ≠ rest') as Hr by congruence.
      specialize (IHc rest' (wf_node_child _ _ _ Hwf Hf) Hr).
      destruct (removed && negb (has_value child') && no_children child') eqn:Hb; simpl.
      * apply andb_true_iff in Hb as [[_ Hv%negb_true_iff]%andb_true_iff Hnc].
        rewrite map_find_erase_eq, Hf; [|by apply wf_node_sorted].
        by rewrite <- IHc, get_from_bare.
      * rewrite map_find_update_eq, Hf; [done|]. by rewrite Hf.
    + destruct (removed && negb (has_value child') && no_children child'); simpl.
      * by rewrite map_find_erase_ne.
      * by rewrite map_find_update_ne.
Qed.

(** Removal keeps every path that runs on beyond the removed key. *)
Lemma prefix_remove_beyond n key c more :
  prefix_from n (key ++ c :: more) = true →
  prefix_from (remove n key).2 (key ++ c :: more) = true.
Proof.
  revert n. induction key as [|c0 rest IH]; intros n; simpl.
  - by destruct (value n).
  - destruct (map_find c0 (children n)) as [child|] eqn:Hf; [|done].
    intros Hp. specialize (IH child Hp).
    destruct (remove child rest) as [removed child']. simpl in *.
    destruct (removed && negb (has_value child') && no_children child') eqn:Hb; simpl.
    + apply andb_true_iff in Hb as [_ Hnc].
      by rewrite prefix_from_bare_app in IH.
    + rewrite map_find_update_eq; [done|]. by rewrite Hf.
Qed.

Lemma prefix_remove_same n key :
  wf_node n = true → match_from n key = true →
  prefix_from (remove n key).2 key = true ↔
  key = [] ∨ ∃ c, prefix_from n (key ++ [c]) = true.
Proof.
  revert n. induction key as [|c0 rest IH]; intros n Hwf Hm.
  - split; [by left|done].
  - simpl in Hm. simpl.
    destruct (map_find c0 (children n)) as [child|] eqn:Hf; [|done].
    pose proof (IH child (wf_node_child _ _ _ Hwf Hf) Hm) as IHc.
    pose proof (prefix_remove_beyond child rest) as Hbeyond.
    destruct (remove child rest) as [removed child'] eqn:Hr. simpl in *.
    destruct (removed && negb (has_value child') && no_children child') eqn:Hb; simpl.
    + apply andb_true_iff in Hb as [_ Hnc].
      rewrite map_find_erase_eq; [|by apply wf_node_sorted].
      split; [done|]. intros [?|[c Hp]]; [done|]. exfalso.
      specialize (Hbeyond c [] Hp).
      by rewrite prefix_from_bare_app in Hbeyond.
    + rewrite map_find_update_eq; [|by rewrite Hf].
      rewrite IHc. split; [|intros [?|?]; [done|by right]].
      intros [->|?]; [|by right]. right.
      simpl in Hr, Hm. unfold has_value in Hm.
      destruct (value child) eqn:Hv; [|done]. injection Hr as <- <-.
      unfold has_value, no_children in Hb. simpl in Hb.
      destruct (children child) as [|[k1 n1] cs1] eqn:Hcs; [done|].
      exists k1. simpl. rewrite Hcs. simpl. by rewrite sym_eqv_refl.
Qed.

(** ** The public operations *)

Lemma erase_unfold t key :
  erase key t = ((remove (root_ t) key).1, mkTrie (remove (root_ t) key).2).
Proof. unfold erase. by destruct (remove (root_ t) key). Qed.

Lemma wf_erase t key : wf t = true → wf (erase key t).2 = true.
Proof. rewrite erase_unfold. apply wf_remove. Qed.

Lemma wf_insert t key v : wf t = true → wf (insert key v t) = true.
Proof. apply wf_insert_from. Qed.

(** C1.  Insert/lookup round trip: whatever the trie, after [insert key v]
    the same key matches and [get] yields [v]. *)
Theorem insert_round_trip t key v :
  match_ key (insert key v t) = true ∧ get key (insert key v t) = Some v.
Proof.
  unfold match_, get, insert. simpl.
  by rewrite match_get_from, get_insert_from.
Qed.

(** C10.  [match] and [get] agree on every key of every trie: [match] is
    true exactly when [get] returns a non-null pointer. *)
Theorem match_get_agree t key :
  match_ key t = match get key t with Some _ => true | None => false end.
Proof. apply match_get_from. Qed.

(** C8.  The empty key is a prefix of every trie, and once it is inserted
    into the empty trie it both matches and is a prefix. *)
Theorem empty_key_handling t v :
  prefix [] t = true ∧
  match_ [] (insert [] v empty) = true ∧ prefix [] (insert [] v empty) = true.
Proof. done. Qed.

(** C2.  Erase correctness: where no value is stored at [key], [erase]
    returns false and hands back the very same tree (so the rendering is the
    same); where a value is stored, [erase] returns true and afterwards the
    key neither matches nor is found by [get]. *)
Theorem erase_correct t key :
  wf t = true →
  (get key t = None →
     erase key t = (false, t) ∧ to_string (erase key t).2 = to_string t) ∧
  (∀ v, get key t = Some v →
     (erase key t).1 = true ∧
     match_ key (erase key t).2 = false ∧ get key (erase key t).2 = None).
Proof.
  intros Hwf. split.
  - intros Hg.
    assert (erase key t = (false, t)) as ->; [|done].
    rewrite erase_unfold, remove_noop; [by destruct t|].
    rewrite match_get_from. unfold get in Hg. by rewrite Hg.
  - intros v Hg. rewrite erase_unfold. cbn [fst snd].
    unfold match_, get, wf in *. cbn [root_]. split_and!.
    + by rewrite remove_flag, match_get_from, Hg.
    + by rewrite match_get_from, get_remove_same.
    + by apply get_remove_same.
Qed.

(** C3.  Erase non-interference: for distinct stored keys [key] and [key'],
    erasing [key] leaves [match], [get] and [prefix] of [key'] as they were
    (in particular [key'] still matches, whether it is a prefix of [key] or
    extends it), while [key] itself stays a valid prefix only when its node
    survives: when it is the root or a longer path runs through it. *)
Theorem erase_non_interference t key key' :
  wf t = true → key ≠ key' → match_ key t = true → match_ key' t = true →
  match_ key' (erase key t).2 = match_ key' t ∧
  get key' (erase key t).2 = get key' t ∧
  prefix key' (erase key t).2 = prefix key' t ∧
  (prefix key (erase key t).2 = true ↔ key = [] ∨ ∃ c, prefix (key ++ [c]) t = true).
Proof.
  intros Hwf Hne Hm Hm'. rewrite erase_unfold. unfold match_, get, prefix in *. simpl.
  assert (get_from (remove (root_ t) key).2 key' = get_from (root_ t) key') as Hg
    by by apply get_remove_other.
  split_and!.
  - by rewrite !match_get_from, Hg.
  - done.
  - rewrite (match_prefix_from _ _ Hm'). apply match_prefix_from.
    by rewrite match_get_from, Hg, <- match_get_from.
  - by apply prefix_remove_same.
Qed.

(** ** Indexed access *)

(** The dereferenced slot holds what [get] finds, on every trie. *)
Lemma index_from_slot n key : (index_from n key).2 = get_from n key.
Proof.
  revert n. induction key as [|c rest IH]; intros n; simpl.
  - by destruct (value n).
  - specialize (IH (child_or_new c n)).
    destruct (index_from (child_or_new c n) rest) as [child slot]. simpl in *.
    rewrite IH. unfold child_or_new.
    destruct (map_find c (children n)); [done|].
    by destruct rest.
Qed.

(** On a key that is a path of the trie, the walk creates nothing. *)
Lemma index_from_node n key :
  wf_node n = true → prefix_from n key = true → (index_from n key).1 = n.
Proof.
  revert n. induction key as [|c rest IH]; intros n Hwf Hp; simpl; [done|].
  simpl in Hp. unfold child_or_new.
  destruct (map_find c (children n)) as [child|] eqn:Hf; [|done].
  specialize (IH child (wf_node_child _ _ _ Hwf Hf) Hp).
  destruct (index_from child rest) as [child' slot]. simpl in *. subst child'.
  rewrite map_set_id; [by destruct n| by apply wf_node_sorted | done].
Qed.

Lemma store_insert_from n key v :
  wf_node n = true → prefix_from n key = true →
  store_from n key v = insert_from n key v.
Proof.
  revert n. induction key as [|c rest IH]; intros n Hwf Hp; simpl; [done|].
  simpl in Hp. unfold child_or_new.
  destruct (map_find c (children n)) as [child|] eqn:Hf; [|done].
  rewrite (IH child (wf_node_child _ _ _ Hwf Hf) Hp).
  rewrite map_set_update; [done| by apply wf_node_sorted | by rewrite Hf].
Qed.

(** C9.  Indexed access within its contract: on a key that currently holds a
    value, [operator[]] creates no node, the slot it dereferences holds that
    value, and assigning through the returned reference stores the new value
    at the key, exactly as [insert] would. *)
Theorem index_in_contract t key :
  wf t = true → match_ key t = true →
  ∃ v, get key t = Some v ∧
       operator_index key t = (t, Some v) ∧
       ∀ v', index_assign key v' t = Some (insert key v' t) ∧
             get key (insert key v' t) = Some v'.
Proof.
  unfold wf, match_, get. intros Hwf Hm.
  pose proof (match_prefix_from _ _ Hm) as Hp.
  rewrite match_get_from in Hm.
  destruct (get_from (root_ t) key) as [v|] eqn:Hg; [|done].
  assert (operator_index key t = (t, Some v)) as Hop.
  { unfold operator_index.
    pose proof (index_from_slot (root_ t) key) as Hs.
    pose proof (index_from_node (root_ t) key Hwf Hp) as Hn.
    destruct (index_from (root_ t) key) as [r slot]. simpl in *.
    subst r. rewrite Hs, Hg. by destruct t. }
  exists v. split_and!; [done|done|].
  intros v'. split.
  - unfold index_assign. rewrite Hop. f_equal. unfold insert. f_equal.
    by apply store_insert_from.
  - apply get_insert_from.
Qed.

(** ** Cloning *)

Lemma clone_children_fold cs2 : ∀ cs1,
  (∀ k1 n1 k2 n2, (k1, n1) ∈ cs1 → (k2, n2) ∈ cs2 → sym_ltb k1 k2 = true) →
  sorted_keys cs2 = true →
  (∀ c child, (c, child) ∈ cs2 → clone child = child) →
  fold_left (λ acc '(c, child), map_set c (clone child) acc) cs2 cs1 = cs1 ++ cs2.
Proof.
  induction cs2 as [|[c ch] rest IH]; intros cs1 Hlt Hs Hcl; simpl.
  - by rewrite app_nil_r.
  - rewrite (Hcl c ch) by (apply elem_of_cons; by left).
    rewrite map_set_snoc.
    + rewrite IH, <- app_assoc; [done| |exact (sorted_keys_tail _ _ _ Hs)|].
      * intros k1 n1 k2 n2 [Hin|Hin%list_elem_of_singleton]%elem_of_app Hin2.
        -- apply (Hlt k1 n1 k2 n2 Hin). apply elem_of_cons. by right.
        -- injection Hin as -> ->. exact (sorted_keys_head_lt _ _ _ _ _ Hs Hin2).
      * intros c' child Hin. apply (Hcl c' child), elem_of_cons. by right.
    + intros k' n' Hin. apply (Hlt k' n' c ch Hin), elem_of_cons. by left.
Qed.

(** The clone of a node is a node with the same values at the same paths. *)
Lemma clone_id n : wf_node n = true → clone n = n.
Proof.
  induction n as [o cs IH] using Node_ind_children. intros [Hs Hall]%wf_node_iff.
  simpl in *. f_equal.
  rewrite clone_children_fold; [done| |done|].
  - intros k1 n1 k2 n2 Hin. by apply elem_of_nil in Hin.
  - intros c child Hin. apply (IH c child Hin). by apply (Hall c child).
Qed.

(** ** Structural minimality *)

Lemma minimal_below_iff n :
  minimal_below n = true ↔
  ∀ c child, (c, child) ∈ children n → meaningful child = true ∧ minimal_below child = true.
Proof.
  destruct n as [o cs]. simpl. rewrite forallb_forall. split.
  - intros Hall c child Hin. apply andb_true_iff, (Hall (c, child)). by apply list_elem_of_In.
  - intros Hall [c child] Hin. apply andb_true_iff, (Hall c child). by apply list_elem_of_In.
Qed.

Lemma minimal_below_value o n : minimal_below (mkNode o (children n)) = minimal_below n.
Proof. by destruct n. Qed.

Lemma minimal_below_child n c child :
  minimal_below n = true → map_find c (children n) = Some child →
  meaningful child = true ∧ minimal_below child = true.
Proof. rewrite minimal_below_iff. intros Hall Hf%map_find_Some_elem. eauto. Qed.

Lemma map_set_no_children o c n m : no_children (mkNode o (map_set c n m)) = false.
Proof.
  unfold no_children. simpl. destruct m as [|[k n1] rest]; [done|]. simpl.
  destruct (sym_ltb c k); [done|]. by destruct (sym_ltb k c).
Qed.

Lemma meaningful_insert_from n key v : meaningful (insert_from n key v) = true.
Proof.
  unfold meaningful. destruct key as [|c rest]; cbn [insert_from]; [done|].
  rewrite map_set_no_children. apply orb_true_r.
Qed.

Lemma minimal_insert_from n key v :
  minimal_below n = true → minimal_below (insert_from n key v) = true.
Proof.
  revert n. induction key as [|c rest IH]; intros n Hmin; cbn [insert_from].
  - by rewrite minimal_below_value.
  - apply minimal_below_iff. cbn [children].
    intros c' ch [[= -> ->]|Hin]%elem_of_map_set.
    + split; [apply meaningful_insert_from|]. apply IH. unfold child_or_new.
      destruct (map_find c (children n)) eqn:Hf; [|done].
      by eapply minimal_below_child.
    + rewrite minimal_below_iff in Hmin. eauto.
Qed.

Lemma minimal_remove n key :
  minimal_below n = true → minimal_below (remove n key).2 = true.
Proof.
  revert n. induction key as [|c rest IH]; intros n Hmin; cbn [remove].
  - destruct (value n); [|done]. cbn [snd]. by rewrite minimal_below_value.
  - destruct (map_find c (children n)) as [child|] eqn:Hf; [|done].
    destruct (minimal_below_child _ _ _ Hmin Hf) as [Hmc Hminc].
    pose proof (IH child Hminc) as IHc.
    pose proof (remove_flag child rest) as Hflag.
    pose proof (remove_noop child rest) as Hnoop.
    destruct (remove child rest) as [removed child']. simpl in IHc, Hflag.
    rewrite minimal_below_iff in Hmin.
    destruct (removed && negb (has_value child') && no_children child') eqn:Hb;
      cbn [snd]; apply minimal_below_iff; cbn [children].
    + intros c' ch Hin%elem_of_map_erase. eauto.
    + intros c' ch [[= -> ->]|Hin]%elem_of_map_update; [|eauto].
      split; [|done]. destruct removed.
      * unfold meaningful. simpl in Hb.
        destruct (has_value child'); [done|]. by destruct (no_children child').
      * rewrite <- Hflag in Hnoop. specialize (Hnoop eq_refl). by injection Hnoop as ->.
Qed.

Lemma step_invariant op t :
  wf t = true → minimal t = true → in_contract [op] t = true →
  wf (step op t) = true ∧ minimal (step op t) = true.
Proof.
  unfold wf, minimal. intros Hwf Hmin Hc. destruct op as [key v|key|key| | | | |]; simpl; try done.
  - split; [by apply wf_insert_from|by apply minimal_insert_from].
  - simpl in Hc. rewrite andb_true_r in Hc. unfold operator_index.
    pose proof (index_from_node (root_ t) key Hwf (match_prefix_from _ _ Hc)) as Hn.
    destruct (index_from (root_ t) key) as [r slot]. simpl in *. by subst r.
  - rewrite erase_unfold. split; [by apply wf_remove|by apply minimal_remove].
  - by rewrite clone_id.
Qed.

Lemma run_invariant ops : ∀ t,
  wf t = true → minimal t = true → in_contract ops t = true →
  wf (run ops t) = true ∧ minimal (run ops t) = true.
Proof.
  induction ops as [|op rest IH]; intros t Hwf Hmin Hc; [done|].
  cbn [in_contract] in Hc. apply andb_true_iff in Hc as [Hop Hrest].
  destruct (step_invariant op t Hwf Hmin) as [Hwf' Hmin'].
  { cbn [in_contract]. by rewrite Hop. }
  cbn [run]. by apply IH.
Qed.

(** Every sequence of operations, within the contract of [operator[]] or
    not, keeps the children maps in key order. *)
Lemma step_wf (op : Op (E:=E) (V:=V)) t : wf t = true → wf (step op t) = true.
Proof.
  unfold wf. intros Hwf. destruct op as [key v|key|key| | | | |]; simpl; try done.
  - by apply wf_insert_from.
  - unfold operator_index. pose proof (wf_index_from (root_ t) key Hwf) as Hi.
    by destruct (index_from (root_ t) key).
  - rewrite erase_unfold. by apply wf_remove.
  - by rewrite clone_id.
Qed.

Lemma run_wf (ops : list (Op (E:=E) (V:=V))) : wf (run ops empty) = true.
Proof.
  assert (∀ t, wf t = true → wf (run ops t) = true) as Hgen; [|by apply Hgen].
  induction ops as [|op rest IH]; intros t Hwf; [done|].
  simpl. by apply IH, step_wf.
Qed.

(** Structural minimality within the contract of [operator[]]: it holds
    after every sequence of [insert], [erase], copies, queries and indexed
    accesses, started on the empty trie, in which each indexed access names a
    key that holds a value at that moment.  The representation stays well
    formed along the way. *)
Theorem minimality_in_contract (ops : list (Op (E:=E) (V:=V))) :
  in_contract ops empty = true →
  minimal (run ops empty) = true ∧ wf (run ops empty) = true.
Proof.
  intros Hc. by destruct (run_invariant ops empty eq_refl eq_refl Hc).
Qed.

(** ** The renderer *)

Lemma string_set_length j ch s : String.length (string_set j ch s) = String.length s.
Proof.
  revert j. induction s as [|a s IH]; intros [|j]; simpl; auto.
Qed.

Lemma string_set_get i j ch s :
  String.get i (string_set j ch s) =
  if (i =? j) && (j <? String.length s) then Some ch else String.get i s.
Proof.
  revert i j. induction s as [|a s IH]; intros i j; simpl.
  - destruct j, i; simpl; by rewrite ?andb_false_r.
  - destruct j as [|j], i as [|i]; simpl; done.
Qed.

Lemma spaces_length (w : nat) : String.length (spaces w) = w.
Proof. induction w; simpl; auto. Qed.

Lemma spaces_get i (w : nat) :
  String.get i (spaces w) = if i <? w then Some " "%char else None.
Proof.
  revert i. induction w as [|w IH]; intros [|i]; simpl; try done.
Qed.

Lemma fold_bars_length anchor stack : ∀ s,
  String.length
    (fold_left (λ prefix bar, if bar <? anchor then string_set bar "|" prefix else prefix)
       stack s) = String.length s.
Proof.
  induction stack as [|bar stack IH]; intros s; simpl; [done|].
  rewrite IH. destruct (bar <? anchor); [apply string_set_length|done].
Qed.

Lemma fold_bars_get anchor stack : ∀ s i,
  String.length s = anchor →
  String.get i
    (fold_left (λ prefix bar, if bar <? anchor then string_set bar "|" prefix else prefix)
       stack s) =
  if bool_decide (i ∈ stack) && (i <? anchor) then Some "|"%char else String.get i s.
Proof.
  induction stack as [|bar stack IH]; intros s i Hlen; cbn [fold_left].
  - by rewrite bool_decide_eq_false_2 by apply not_elem_of_nil.
  - rewrite IH by (destruct (bar <? anchor); by rewrite ?string_set_length).
    assert (String.get i (if bar <? anchor then string_set bar "|" s else s) =
            if (i =? bar) && (bar <? anchor) then Some "|"%char else String.get i s) as ->.
    { destruct (bar <? anchor) eqn:Hbar; [|by rewrite andb_false_r].
      by rewrite string_set_get, Hlen, Hbar. }
    destruct (i <? anchor) eqn:Hi; rewrite ?andb_false_r, ?andb_true_r.
    + destruct (i =? bar) eqn:Heq.
      * apply Nat.eqb_eq in Heq as ->. rewrite Hi.
        rewrite (bool_decide_eq_true_2 (bar ∈ bar :: stack)) by (apply elem_of_cons; by left).
        by destruct (bool_decide (bar ∈ stack)).
      * apply Nat.eqb_neq in Heq. simpl.
        rewrite (bool_decide_ext (i ∈ bar :: stack) (i ∈ stack)); [done|].
        rewrite elem_of_cons. split; [by intros [?|?]|by right].
    + destruct (i =? bar) eqn:Heq; [|done].
      apply Nat.eqb_eq in Heq as ->. by rewrite Hi.
Qed.

(** A line prefix is [anchor] columns wide; a column holds a bar exactly when
    it is on the stack, and a space otherwise. *)
Lemma branch_prefix_get anchor stack i :
  String.get i (branch_prefix anchor stack) =
  if i <? anchor
  then Some (if bool_decide (i ∈ stack) then "|" else " ")%char
  else None.
Proof.
  unfold branch_prefix. rewrite fold_bars_get by apply spaces_length.
  rewrite spaces_get. destruct (i <? anchor); [|by rewrite andb_false_r].
  rewrite andb_true_r. by destruct (bool_decide (i ∈ stack)).
Qed.

(** After the first child, the loop of the source follows [later_children]. *)
Lemma children_loop_later anchor total open_ rest : ∀ c child count lines,
  S count + length rest = total →
  children_loop partial anchor total ((c, child) :: rest) false count
    (open_ ++ [anchor]) lines =
  later_children anchor open_ c child rest lines.
Proof.
  induction rest as [|[c' child'] rest IH]; intros c child count lines Htot.
  - simpl in Htot. cbn [children_loop later_children].
    assert ((S count =? total) = true) as -> by (apply Nat.eqb_eq; lia).
    by rewrite removelast_last.
  - cbn [length] in Htot. cbn [later_children]. rewrite <- IH with (count := S count) by lia.
    cbn [children_loop].
    by assert ((S count =? total) = false) as -> by (apply Nat.eqb_neq; lia).
Qed.

(** C6 (amended).  Open-branch bookkeeping of the renderer.  A node with
    several children keeps its anchor on the stack while its first and its
    middle children are rendered and pops it just before the line of its
    last child is started, so the last child's subtree is rendered without
    it.  The line of every child after the first opens with [anchor] columns
    that hold a bar at each column found on the stack at that moment and a
    space elsewhere. *)
Theorem open_branch_bookkeeping o c1 n1 c2 n2 rest (sym : E) open_ lines :
  let node := mkNode o ((c1, n1) :: (c2, n2) :: rest) in
  let lines1 := back_append lines (label node sym) in
  let anchor := String.length (back lines1) in
  partial node sym open_ lines =
    later_children anchor open_ c2 n2 rest
      (partial n1 c1 (open_ ++ [anchor]) (back_append lines1 "-")) ∧
  ∀ stack i,
    String.get i (branch_prefix anchor stack) =
    if i <? anchor
    then Some (if bool_decide (i ∈ stack) then "|" else " ")%char
    else None.
Proof.
  intros node lines1 anchor. split; [|intros; apply branch_prefix_get].
  subst node. cbn [partial]. fold lines1. fold anchor.
  cbn [length Nat.ltb Nat.leb]. cbn [children_loop].
  by rewrite <- children_loop_later with (total := S (S (length rest))) (count := 1).
Qed.

End Theory.
End TrieFacts.

(** * Properties of the container on the free store *)

Module HeapFacts.
Import Trie Heap ChildMapFacts TrieFacts.

Section Theory.
Context {E : Type} `{!Symbol E} {V : Type}.
Implicit Types (c k : E) (key : list E) (n : Node (E:=E) (V:=V))
  (cs : list (E * Node (E:=E) (V:=V))) (hcs : list (E * loc))
  (σ : gmap loc (HNode (E:=E) (V:=V))) (l : loc) (F : gset loc) (v : V)
  (s : State (E:=E) (V:=V)) (t a b : Trie (E:=E) (V:=V))
  (owned : gmap positive (Trie (E:=E) (V:=V) * gset loc))
  (m : Mutation (E:=E) (V:=V)) (q : Query (E:=E)).

(** ** Footprints and frames *)

Lemma repr_in_dom σ l n F : repr σ l n F → F ⊆ dom σ.
Proof.
  revert l n F.
  apply (repr_mut σ (λ _ _ F, F ⊆ dom σ) (λ _ _ F, F ⊆ dom σ)).
  - intros l o hcs cs F Hl _ IH _.
    apply union_subseteq. split; [|done].
    apply singleton_subseteq_l, elem_of_dom. by eexists.
  - done.
  - intros. by apply union_subseteq.
Qed.

Lemma reprs_in_dom σ hcs cs F : reprs σ hcs cs F → F ⊆ dom σ.
Proof.
  induction 1 as [|c l n hcs cs F1 F2 Hr _ IH _]; [done|].
  apply union_subseteq. split; [by eapply repr_in_dom|done].
Qed.

Lemma repr_root_in σ l n F : repr σ l n F → l ∈ F.
Proof. destruct 1. set_solver. Qed.

(** A tree only depends on the store at the addresses it occupies. *)
Lemma repr_frame σ σ' l n F :
  repr σ l n F → (∀ l', l' ∈ F → σ' !! l' = σ !! l') → repr σ' l n F.
Proof.
  intros Hr. revert l n F Hr.
  apply (repr_mut σ
    (λ l n F, (∀ l', l' ∈ F → σ' !! l' = σ !! l') → repr σ' l n F)
    (λ hcs cs F, (∀ l', l' ∈ F → σ' !! l' = σ !! l') → reprs σ' hcs cs F)).
  - intros l o hcs cs F Hl _ IH Hnin Hag. apply repr_node with hcs; [|apply IH|done].
    + rewrite Hag; [done|set_solver].
    + intros l' ?. apply Hag. set_solver.
  - intros _. constructor.
  - intros c l n hcs cs F1 F2 _ IH1 _ IH2 Hdisj Hag. constructor; [| |done].
    + apply IH1. intros l' ?. apply Hag. set_solver.
    + apply IH2. intros l' ?. apply Hag. set_solver.
Qed.

Lemma reprs_frame σ σ' hcs cs F :
  reprs σ hcs cs F → (∀ l', l' ∈ F → σ' !! l' = σ !! l') → reprs σ' hcs cs F.
Proof.
  induction 1 as [|c l n hcs cs F1 F2 Hr _ IH Hdisj]; intros Hag; constructor; [| |done].
  - eapply repr_frame; [done|]. intros l' ?. apply Hag. set_solver.
  - apply IH. intros l' ?. apply Hag. set_solver.
Qed.

(** ** The children map of a node in the store and of its tree *)

Lemma reprs_find_None σ hcs cs F c :
  reprs σ hcs cs F → map_find c hcs = None → map_find c cs = None.
Proof.
  induction 1 as [|c' l n hcs cs F1 F2 _ _ IH _]; simpl; [done|].
  destruct (sym_eqv c c'); [done|auto].
Qed.

(** Focusing on one child: its tree and the rest are apart, and the child can
    be replaced by any tree that stays apart from the rest. *)
Lemma reprs_find_Some σ hcs cs F c l :
  reprs σ hcs cs F → map_find c hcs = Some l →
  ∃ n F1 F2,
    map_find c cs = Some n ∧ repr σ l n F1 ∧ F = F1 ∪ F2 ∧ F1 ## F2 ∧
    reprs σ (map_erase c hcs) (map_erase c cs) F2 ∧
    ∀ σ' n' F1',
      repr σ' l n' F1' → F1' ## F2 → (∀ l', l' ∈ F2 → σ' !! l' = σ !! l') →
      reprs σ' hcs (map_update c n' cs) (F1' ∪ F2).
Proof.
  induction 1 as [|c' l0 n hcs cs F1 F2 Hr Hrs IH Hdisj]; simpl; [done|].
  destruct (sym_eqv c c') eqn:Heq.
  - intros [= ->]. exists n, F1, F2. split_and!; try done.
    intros σ' n' F1' Hr' Hdisj' Hag. constructor; [done| |done].
    by eapply reprs_frame.
  - intros Hf. destruct (IH Hf) as (n1 & G1 & G2 & Hfc & Hr1 & -> & Hd & Hers & Hupd).
    exists n1, G1, (F1 ∪ G2). split_and!; try done.
    + set_solver.
    + set_solver.
    + constructor; [done|done|set_solver].
    + intros σ' n' G1' Hr' Hdisj' Hag.
      replace (G1' ∪ (F1 ∪ G2)) with (F1 ∪ (G1' ∪ G2)) by set_solver.
      constructor.
      * eapply repr_frame; [done|]. intros l' ?. apply Hag. set_solver.
      * apply Hupd; [done|set_solver|]. intros l' ?. apply Hag. set_solver.
      * set_solver.
Qed.

(** Linking a new child under a key that was not there. *)
Lemma reprs_map_set σ hcs cs F c l n F1 :
  reprs σ hcs cs F → map_find c hcs = None → repr σ l n F1 → F1 ## F →
  reprs σ (map_set c l hcs) (map_set c n cs) (F1 ∪ F).
Proof.
  intros Hrs. revert F1. induction Hrs as [|c' l0 n0 hcs cs G1 G2 Hr Hrs IH Hdisj];
    intros F1 Hf Hr1 Hd; simpl.
  - constructor; [done|constructor|done].
  - simpl in Hf. destruct (sym_eqv c c') eqn:Heq; [done|].
    destruct (sym_ltb c c') eqn:Hlt.
    + constructor; [done|by constructor|done].
    + destruct (sym_ltb c' c) eqn:Hgt.
      * replace (F1 ∪ (G1 ∪ G2)) with (G1 ∪ (F1 ∪ G2)) by set_solver.
        constructor; [done| |set_solver]. apply IH; [done|done|set_solver].
      * unfold sym_eqv in Heq. by rewrite Hlt, Hgt in Heq.
Qed.

(** ** The queries read the tree *)

Lemma repr_lookup σ l n F :
  repr σ l n F →
  ∃ hcs F', σ !! l = Some (mkHNode (value n) hcs) ∧ reprs σ hcs (children n) F' ∧
            (l ∉ F') ∧ (F = {[l]} ∪ F').
Proof. destruct 1. eauto 10. Qed.

Lemma h_get_from_repr key : ∀ σ l n F,
  repr σ l n F → h_get_from σ l key = get_from n key.
Proof.
  induction key as [|c rest IH]; intros σ l n F Hr;
    destruct (repr_lookup _ _ _ _ Hr) as (hcs & F' & Hl & Hrs & _ & _); simpl; rewrite Hl; simpl.
  - by destruct (value n).
  - destruct (map_find c hcs) as [lc|] eqn:Hf.
    + destruct (reprs_find_Some _ _ _ _ _ _ Hrs Hf) as (nc & F1 & F2 & -> & Hrc & _).
      by eapply IH.
    + by rewrite (reprs_find_None _ _ _ _ _ Hrs Hf).
Qed.

Lemma h_match_from_repr key : ∀ σ l n F,
  repr σ l n F → h_match_from σ l key = match_from n key.
Proof.
  induction key as [|c rest IH]; intros σ l n F Hr;
    destruct (repr_lookup _ _ _ _ Hr) as (hcs & F' & Hl & Hrs & _ & _); simpl; rewrite Hl; simpl.
  - done.
  - destruct (map_find c hcs) as [lc|] eqn:Hf.
    + destruct (reprs_find_Some _ _ _ _ _ _ Hrs Hf) as (nc & F1 & F2 & -> & Hrc & _).
      by eapply IH.
    + by rewrite (reprs_find_None _ _ _ _ _ Hrs Hf).
Qed.

Lemma h_prefix_from_repr key : ∀ σ l n F,
  repr σ l n F → h_prefix_from σ l key = prefix_from n key.
Proof.
  induction key as [|c rest IH]; intros σ l n F Hr; [done|].
  destruct (repr_lookup _ _ _ _ Hr) as (hcs & F' & Hl & Hrs & _ & _); simpl; rewrite Hl; simpl.
  destruct (map_find c hcs) as [lc|] eqn:Hf.
  - destruct (reprs_find_Some _ _ _ _ _ _ Hrs Hf) as (nc & F1 & F2 & -> & Hrc & _).
    by eapply IH.
  - by rewrite (reprs_find_None _ _ _ _ _ Hrs Hf).
Qed.

(** ** The mutators rebuild the tree in place

    Each statement has three parts: the store afterwards holds the tree the
    value-level operation computes; addresses outside the footprint are left
    as they were; and the new footprint takes no address that was in use
    elsewhere. *)

Lemma repr_new_node σ l :
  σ !! l = Some (mkHNode None []) → repr σ l new_node {[l]}.
Proof.
  intros Hl. replace ({[l]} : gset loc) with ({[l]} ∪ ∅ : gset loc) by set_solver.
  apply repr_node with []; [done|constructor|set_solver].
Qed.

Lemma h_insert_from_spec key : ∀ σ l n F v,
  repr σ l n F → wf_node n = true →
  ∃ F',
    repr (h_insert_from σ l key v) l (insert_from n key v) F' ∧
    (∀ l', l' ∈ dom σ → l' ∉ F → h_insert_from σ l key v !! l' = σ !! l') ∧
    F' ∩ dom σ ⊆ F.
Proof.
  induction key as [|c rest IH]; intros σ l n F v Hr Hwf;
    destruct (repr_lookup _ _ _ _ Hr) as (hcs & Fc & Hl & Hrs & Hnin & ->);
    cbn [h_insert_from insert_from]; rewrite Hl; cbn [hchildren hvalue].
  - exists ({[l]} ∪ Fc). split_and!; [|intros l' _ ?; rewrite lookup_insert_ne; set_solver|set_solver].
    apply repr_node with hcs; [by rewrite lookup_insert_eq| |done].
    eapply reprs_frame; [done|]. intros l' ?. rewrite lookup_insert_ne; set_solver.
  - pose proof (reprs_in_dom _ _ _ _ Hrs) as Hdom.
    assert (l ∈ dom σ) as Hldom by (apply elem_of_dom; by eexists).
    unfold child_or_new. destruct (map_find c hcs) as [lc|] eqn:Hf.
    + destruct (reprs_find_Some _ _ _ _ _ _ Hrs Hf)
        as (nc & F1 & F2 & Hfc & Hrc & -> & Hdisj & _ & Hupd).
      rewrite Hfc.
      destruct (IH σ lc nc F1 v Hrc (wf_node_child _ _ _ Hwf Hfc)) as (F1' & Hr' & Hfr & Hsub).
      set (σ' := h_insert_from σ lc rest v) in *.
      rewrite map_set_update; [|by apply wf_node_sorted|by rewrite Hfc].
      exists ({[l]} ∪ (F1' ∪ F2)). split_and!.
      * apply repr_node with hcs.
        -- rewrite Hfr; [done|done|set_solver].
        -- apply Hupd; [done|set_solver|]. intros l' ?. apply Hfr; set_solver.
        -- set_solver.
      * intros l' ? ?. apply Hfr; set_solver.
      * set_solver.
    + rewrite (reprs_find_None _ _ _ _ _ Hrs Hf).
      unfold make_unique. set (ln := fresh (dom σ)).
      pose proof (is_fresh (dom σ)) as Hfresh. fold ln in Hfresh.
      set (σ2 := <[l := mkHNode (value n) (map_set c ln hcs)]> (<[ln := mkHNode None []]> σ)).
      assert (l ≠ ln) as Hne by (intros ->; done).
      assert (repr σ2 ln new_node {[ln]}) as Hrn.
      { apply repr_new_node. unfold σ2. by rewrite lookup_insert_ne, lookup_insert_eq. }
      destruct (IH σ2 ln new_node {[ln]} v Hrn eq_refl) as (F1' & Hr' & Hfr & Hsub).
      set (σ' := h_insert_from σ2 ln rest v) in *.
      assert (dom σ2 = {[l; ln]} ∪ dom σ) as Hdom2.
      { unfold σ2. rewrite !dom_insert_L. set_solver. }
      exists ({[l]} ∪ (F1' ∪ Fc)). split_and!.
      * apply repr_node with (map_set c ln hcs).
        -- rewrite Hfr; [|set_solver|set_solver]. unfold σ2. by rewrite lookup_insert_eq.
        -- apply reprs_map_set; [|done|done|set_solver].
           eapply reprs_frame; [done|]. intros l' ?.
           rewrite Hfr; [|set_solver|set_solver].
           unfold σ2. rewrite !lookup_insert_ne; set_solver.
        -- set_solver.
      * intros l' ? ?. rewrite Hfr; [|set_solver|set_solver].
        unfold σ2. rewrite !lookup_insert_ne; set_solver.
      * set_solver.
Qed.

Lemma index_from_cons n c rest :
  index_from n (c :: rest) =
  (mkNode (value n) (map_set c (index_from (child_or_new c n) rest).1 (children n)),
   (index_from (child_or_new c n) rest).2).
Proof. simpl. by destruct (index_from (child_or_new c n) rest). Qed.

Lemma h_index_from_spec key : ∀ σ l n F,
  repr σ l n F → wf_node n = true →
  (h_index_from σ l key).2 = (index_from n key).2 ∧
  ∃ F',
    repr (h_index_from σ l key).1 l (index_from n key).1 F' ∧
    (∀ l', l' ∈ dom σ → l' ∉ F → (h_index_from σ l key).1 !! l' = σ !! l') ∧
    F' ∩ dom σ ⊆ F.
Proof.
  induction key as [|c rest IH]; intros σ l n F Hr Hwf.
  { simpl. destruct (repr_lookup _ _ _ _ Hr) as (hcs & Fc & Hl & _).
    rewrite Hl. split; [done|]. exists F. split_and!; [done|done|set_solver]. }
  destruct (repr_lookup _ _ _ _ Hr) as (hcs & Fc & Hl & Hrs & Hnin & ->).
  rewrite index_from_cons. cbn [h_index_from fst snd]. rewrite Hl. cbn [hchildren hvalue].
  pose proof (reprs_in_dom _ _ _ _ Hrs) as Hdom.
  assert (l ∈ dom σ) as Hldom by (apply elem_of_dom; by eexists).
  unfold child_or_new. destruct (map_find c hcs) as [lc|] eqn:Hf.
  - destruct (reprs_find_Some _ _ _ _ _ _ Hrs Hf)
      as (nc & F1 & F2 & Hfc & Hrc & -> & Hdisj & _ & Hupd).
    rewrite Hfc.
    destruct (IH σ lc nc F1 Hrc (wf_node_child _ _ _ Hwf Hfc))
      as (Hslot & F1' & Hr' & Hfr & Hsub).
    split; [done|].
    rewrite map_set_update; [|by apply wf_node_sorted|by rewrite Hfc].
    exists ({[l]} ∪ (F1' ∪ F2)). split_and!.
    + apply repr_node with hcs.
      * rewrite Hfr; [done|done|set_solver].
      * apply Hupd; [done|set_solver|]. intros l' ?. apply Hfr; set_solver.
      * set_solver.
    + intros l' ? ?. apply Hfr; set_solver.
    + set_solver.
  - rewrite (reprs_find_None _ _ _ _ _ Hrs Hf).
    unfold make_unique. set (ln := fresh (dom σ)).
    pose proof (is_fresh (dom σ)) as Hfresh. fold ln in Hfresh.
    set (σ2 := <[l := mkHNode (value n) (map_set c ln hcs)]> (<[ln := mkHNode None []]> σ)).
    assert (l ≠ ln) as Hne by (intros ->; done).
    assert (repr σ2 ln new_node {[ln]}) as Hrn.
    { apply repr_new_node. unfold σ2. by rewrite lookup_insert_ne, lookup_insert_eq. }
    destruct (IH σ2 ln new_node {[ln]} Hrn eq_refl) as (Hslot & F1' & Hr' & Hfr & Hsub).
    split; [done|].
    assert (dom σ2 = {[l; ln]} ∪ dom σ) as Hdom2.
    { unfold σ2. rewrite !dom_insert_L. set_solver. }
    exists ({[l]} ∪ (F1' ∪ Fc)). split_and!.
    + apply repr_node with (map_set c ln hcs).
      * rewrite Hfr; [|set_solver|set_solver]. unfold σ2. by rewrite lookup_insert_eq.
      * apply reprs_map_set; [|done|done|set_solver].
        eapply reprs_frame; [done|]. intros l' ?.
        rewrite Hfr; [|set_solver|set_solver].
        unfold σ2. rewrite !lookup_insert_ne; set_solver.
      * set_solver.
    + intros l' ? ?. rewrite Hfr; [|set_solver|set_solver].
      unfold σ2. rewrite !lookup_insert_ne; set_solver.
    + set_solver.
Qed.

Lemma reprs_nil_iff σ hcs cs F : reprs σ hcs cs F → hcs = [] ↔ cs = [].
Proof. by destruct 1. Qed.

Lemma h_remove_spec key : ∀ σ l n F,
  repr σ l n F → wf_node n = true →
  (h_remove σ l key).1 = (remove n key).1 ∧
  ∃ F',
    repr (h_remove σ l key).2 l (remove n key).2 F' ∧
    (∀ l', l' ∈ dom σ → l' ∉ F → (h_remove σ l key).2 !! l' = σ !! l') ∧
    F' ∩ dom σ ⊆ F.
Proof.
  induction key as [|c rest IH]; intros σ l n F Hr Hwf;
    destruct (repr_lookup _ _ _ _ Hr) as (hcs & Fc & Hl & Hrs & Hnin & ->);
    cbn [h_remove remove]; rewrite Hl; cbn [hchildren hvalue].
  - destruct (value n) as [v0|] eqn:Hv; cbn [fst snd].
    + split; [done|]. exists ({[l]} ∪ Fc). split_and!;
        [|intros l' _ ?; rewrite lookup_insert_ne; set_solver|set_solver].
      apply repr_node with hcs; [by rewrite lookup_insert_eq| |done].
      eapply reprs_frame; [done|]. intros l' ?. rewrite lookup_insert_ne; set_solver.
    + split; [done|]. exists ({[l]} ∪ Fc). split_and!; [done|done|set_solver].
  - pose proof (reprs_in_dom _ _ _ _ Hrs) as Hdom.
    assert (l ∈ dom σ) as Hldom by (apply elem_of_dom; by eexists).
    destruct (map_find c hcs) as [lc|] eqn:Hf.
    2:{ rewrite (reprs_find_None _ _ _ _ _ Hrs Hf). cbn [fst snd].
        split; [done|]. exists ({[l]} ∪ Fc). split_and!; [done|done|set_solver]. }
    destruct (reprs_find_Some _ _ _ _ _ _ Hrs Hf)
      as (nc & F1 & F2 & Hfc & Hrc & -> & Hdisj & Hers & Hupd).
    rewrite Hfc.
    destruct (IH σ lc nc F1 Hrc (wf_node_child _ _ _ Hwf Hfc))
      as (Hflag & F1' & Hr' & Hfr & Hsub).
    destruct (h_remove σ lc rest) as [removed σ1].
    destruct (remove nc rest) as [removed' nc']. cbn [fst snd] in *. subst removed'.
    destruct (repr_lookup _ _ _ _ Hr') as (hcs' & Fc' & Hlc' & Hrs' & _ & ->).
    rewrite Hlc'. cbn [hchildren hvalue].
    assert (bool_decide (is_Some (value nc')) = has_value nc') as ->.
    { unfold has_value. destruct (value nc'); [by apply bool_decide_eq_true_2|].
      apply bool_decide_eq_false_2. by intros []. }
    assert (bool_decide (hcs' = []) = no_children nc') as ->.
    { unfold no_children. pose proof (reprs_nil_iff _ _ _ _ Hrs') as Hnil.
      destruct (children nc'); [apply bool_decide_eq_true_2; by apply Hnil|].
      apply bool_decide_eq_false_2. intros ?. by apply Hnil in H. }
    pose proof (repr_root_in _ _ _ _ Hrc) as Hlc1.
    assert (l ≠ lc) as Hne by set_solver.
    destruct (removed && negb (has_value nc') && no_children nc'); cbn [fst snd].
    + split; [done|]. exists ({[l]} ∪ F2). split_and!.
      * apply repr_node with (map_erase c hcs).
        -- by rewrite lookup_delete_ne, lookup_insert_eq.
        -- eapply reprs_frame; [done|]. intros l' ?.
           rewrite lookup_delete_ne, lookup_insert_ne by set_solver.
           apply Hfr; set_solver.
        -- set_solver.
      * intros l' ? ?. rewrite lookup_delete_ne, lookup_insert_ne by set_solver.
        apply Hfr; set_solver.
      * set_solver.
    + split; [done|]. exists ({[l]} ∪ (({[lc]} ∪ Fc') ∪ F2)). split_and!.
      * apply repr_node with hcs.
        -- rewrite Hfr; [done|done|set_solver].
        -- apply Hupd; [done|set_solver|]. intros l' ?. apply Hfr; set_solver.
        -- set_solver.
      * intros l' ? ?. apply Hfr; set_solver.
      * set_solver.
Qed.

(** ** Cloning builds a tree out of fresh nodes *)

Lemma reprs_keys σ hcs cs F : reprs σ hcs cs F → hcs.*1 = cs.*1.
Proof. induction 1; simpl; by f_equal. Qed.

Lemma reprs_snoc σ hcs cs F c l n F1 :
  reprs σ hcs cs F → repr σ l n F1 → F1 ## F →
  reprs σ (hcs ++ [(c, l)]) (cs ++ [(c, n)]) (F ∪ F1).
Proof.
  induction 1 as [|c' l0 n0 hcs cs G1 G2 Hr Hrs IH Hdisj]; intros Hr1 Hd; simpl.
  - replace (∅ ∪ F1) with (F1 ∪ ∅) by set_solver. constructor; [done|constructor|set_solver].
  - replace (G1 ∪ G2 ∪ F1) with (G1 ∪ (G2 ∪ F1)) by set_solver.
    constructor; [done| |set_solver]. apply IH; [done|set_solver].
Qed.

Lemma height_pos n : 0 < height n.
Proof. destruct n. simpl. lia. Qed.

Lemma height_child n c n' : (c, n') ∈ children n → height n' < height n.
Proof.
  destruct n as [o cs]. simpl. induction cs as [|[c0 n0] cs IH]; simpl.
  - by intros ?%elem_of_nil.
  - intros [[= -> ->]|Hin]%elem_of_cons; [lia|]. specialize (IH Hin). lia.
Qed.

Lemma clone_children_spec fuel σ0 copy o hcs2 cs2 F2 :
  clone_ok (E:=E) (V:=V) fuel → copy ∉ dom σ0 →
  reprs σ0 hcs2 cs2 F2 →
  ∀ σa hdone cdone G,
    sorted_keys hcs2 = true →
    (∀ k1 l1 k2 l2, (k1, l1) ∈ hdone → (k2, l2) ∈ hcs2 → sym_ltb k1 k2 = true) →
    (∀ c n, (c, n) ∈ cs2 → wf_node n = true ∧ height n ≤ fuel) →
    clone_inv σ0 copy o σa hdone cdone G →
    ∃ σ' hfin G',
      clone_children (h_clone fuel) copy hcs2 σa = Some σ' ∧
      clone_inv σ0 copy o σ' hfin (cdone ++ cs2) G'.
Proof.
  intros Hok Hcopy.
  induction 1 as [|c lc nc hcs cs F1 F2' Hr Hrs IH Hdisj];
    intros σa hdone cdone G Hsorted Hlt Hall Hinv.
  { exists σa, hdone, G. by rewrite app_nil_r. }
  destruct Hinv as (Hcp & Hdone & HcG & HG & Hag & Hdom).
  destruct (Hall c nc) as [Hwf Hh]; [apply elem_of_cons; by left|].
  assert (repr σa lc nc F1) as Hra.
  { eapply repr_frame; [done|]. intros x Hx. apply Hag.
    by apply (repr_in_dom _ _ _ _ Hr). }
  destruct (Hok σa lc nc F1 Hra Hwf Hh) as (σb & lc' & F1' & Hcl & Hrb & Hfresh & Hagb & Hdomb).
  cbn [clone_children]. rewrite Hcl. simpl.
  assert (copy ∈ dom σa) as Hcpa by (apply elem_of_dom; by eexists).
  rewrite (Hagb copy Hcpa), Hcp. simpl.
  rewrite map_set_snoc.
  2:{ intros k' l' Hin. apply (Hlt k' l' c lc Hin). apply elem_of_cons. by left. }
  set (σc := <[copy := mkHNode o (hdone ++ [(c, lc')])]> σb).
  destruct (IH σc (hdone ++ [(c, lc')]) (cdone ++ [(c, nc)]) (G ∪ F1')) as (σ' & hfin & G' & Hloop & Hinv').
  - exact (sorted_keys_tail _ _ _ Hsorted).
  - intros k1 l1 k2 l2 [Hin|Hin%list_elem_of_singleton]%elem_of_app Hin2.
    + apply (Hlt k1 l1 k2 l2 Hin). apply elem_of_cons. by right.
    + injection Hin as -> ->. exact (sorted_keys_head_lt _ _ _ _ _ Hsorted Hin2).
  - intros c' n' Hin. apply (Hall c' n'). apply elem_of_cons. by right.
  - pose proof (reprs_in_dom _ _ _ _ Hdone) as HGdom.
    unfold clone_inv. split_and!.
    + unfold σc. by rewrite lookup_insert_eq.
    + apply reprs_snoc.
      * eapply reprs_frame; [done|]. intros x Hx. unfold σc.
        rewrite lookup_insert_ne by set_solver. apply Hagb. set_solver.
      * eapply repr_frame; [done|]. intros x Hx. unfold σc.
        rewrite lookup_insert_ne; [done|]. set_solver.
      * set_solver.
    + set_solver.
    + set_solver.
    + intros x Hx. unfold σc. rewrite lookup_insert_ne by set_solver.
      rewrite Hagb; [by apply Hag|]. set_solver.
    + unfold σc. rewrite dom_insert_L, Hdomb, Hdom. set_solver.
  - exists σ', hfin, G'. split; [done|]. by rewrite <- app_assoc in Hinv'.
Qed.

Lemma h_clone_spec fuel : clone_ok (E:=E) (V:=V) fuel.
Proof.
  induction fuel as [|fuel IH]; intros σ l n F Hr Hwf Hh.
  { pose proof (height_pos n). lia. }
  destruct (repr_lookup _ _ _ _ Hr) as (hcs & Fc & Hl & Hrs & Hnin & ->).
  cbn [h_clone]. rewrite Hl. simpl. unfold make_unique.
  set (copy := fresh (dom σ)).
  pose proof (is_fresh (dom σ)) as Hfresh. fold copy in Hfresh.
  rewrite insert_insert_eq.
  destruct (clone_children_spec fuel σ copy (value n) hcs (children n) Fc IH Hfresh Hrs
              (<[copy := mkHNode (value n) []]> σ) [] [] ∅)
    as (σ' & hfin & G' & Hloop & Hcp & Hfin & HcG & HG & Hag & Hdom).
  - rewrite (sorted_keys_ext hcs (children n)); [by apply wf_node_sorted|].
    by eapply reprs_keys.
  - intros k1 l1 k2 l2 Hin. by apply elem_of_nil in Hin.
  - intros c n' Hin. split.
    + apply wf_node_iff in Hwf as [_ Hall]. by eapply Hall.
    + pose proof (height_child _ _ _ Hin). lia.
  - unfold clone_inv. split_and!.
    + by rewrite lookup_insert_eq.
    + constructor.
    + set_solver.
    + set_solver.
    + intros x Hx. rewrite lookup_insert_ne; [done|]. set_solver.
    + rewrite dom_insert_L. set_solver.
  - rewrite Hloop. simpl. exists σ', copy, ({[copy]} ∪ G'). split_and!.
    + done.
    + destruct n as [o cs]. by apply repr_node with hfin.
    + set_solver.
    + done.
    + rewrite Hdom. set_solver.
Qed.

(** ** Destruction stays inside the footprint *)

Lemma destroy_children_frame (self : gmap loc (HNode (E:=E) (V:=V)) → loc → gmap loc HNode) :
  (∀ σ l n F x, repr σ l n F → x ∉ F → self σ l !! x = σ !! x) →
  ∀ hcs σ cs F x,
    reprs σ hcs cs F → x ∉ F → destroy_children self hcs σ !! x = σ !! x.
Proof.
  intros Hself. induction hcs as [|[c lc] hcs IH]; intros σ cs F x Hrs Hx; [done|].
  inversion Hrs as [|c' l' n' hcs' cs' F1 F2 Hr1 Hrs' Hdisj]; subst.
  cbn [destroy_children].
  rewrite (IH (self σ lc) cs' F2 x); [| |set_solver].
  - apply (Hself σ lc n' F1); [done|set_solver].
  - eapply reprs_frame; [done|]. intros y Hy.
    apply (Hself σ lc n' F1); [done|set_solver].
Qed.

Lemma h_destroy_frame fuel : ∀ σ l n F x,
  repr σ l n F → x ∉ F → h_destroy fuel σ l !! x = σ !! x.
Proof.
  induction fuel as [|fuel IH]; intros σ l n F x Hr Hx; [done|].
  destruct (repr_lookup _ _ _ _ Hr) as (hcs & Fc & Hl & Hrs & Hnin & ->).
  cbn [h_destroy]. rewrite Hl. cbn [hchildren].
  rewrite lookup_delete_ne by set_solver.
  apply (destroy_children_frame _ IH hcs σ (children n) Fc); [done|set_solver].
Qed.

(** ** States of several tries *)

Lemma separated_lookup s owned this t F :
  separated s owned → owned !! this = Some (t, F) →
  ∃ r, roots s !! this = Some r ∧ repr (nodes s) r (root_ t) F ∧ wf t = true.
Proof.
  intros [Hall _] Ho. specialize (Hall this). rewrite Ho in Hall.
  destruct (roots s !! this) as [r|]; [|done]. by exists r.
Qed.

Lemma separated_owned s owned this r :
  separated s owned → roots s !! this = Some r →
  ∃ t F, owned !! this = Some (t, F).
Proof.
  intros [Hall _] Hr. specialize (Hall this). rewrite Hr in Hall.
  destruct (owned !! this) as [[t F]|]; [|done]. by exists t, F.
Qed.

(** A query on an object answers from the tree the object owns. *)
Lemma ask_answer s owned this t F q :
  separated s owned → owned !! this = Some (t, F) → ask this q s = answer q t.
Proof.
  intros Hsep Ho. destruct (separated_lookup _ _ _ _ _ Hsep Ho) as (r & Hr & Hrep & _).
  destruct q as [key|key|key]; simpl; f_equal.
  - unfold h_prefix. rewrite Hr. by eapply h_prefix_from_repr.
  - unfold h_match. rewrite Hr. by eapply h_match_from_repr.
  - unfold h_get. rewrite Hr. by eapply h_get_from_repr.
Qed.

(** Replacing the tree of one object, given that the store changed only
    inside its footprint and that the new footprint takes nothing in use. *)
Lemma separated_update s owned this t F σ' t' F' r :
  separated s owned → owned !! this = Some (t, F) → roots s !! this = Some r →
  repr σ' r (root_ t') F' → wf t' = true →
  (∀ l', l' ∈ dom (nodes s) → l' ∉ F → σ' !! l' = nodes s !! l') →
  F' ∩ dom (nodes s) ⊆ F →
  separated (mkState σ' (roots s)) (<[this := (t', F')]> owned).
Proof.
  intros [Hall Hdisj] Ho Hr Hrep Hwf Hfr Hsub. split.
  - intros t2. simpl. destruct (decide (t2 = this)) as [->|Hne].
    + by rewrite Hr, lookup_insert_eq.
    + rewrite lookup_insert_ne by done. specialize (Hall t2).
      destruct (roots s !! t2) as [r2|], (owned !! t2) as [[tr2 F2]|] eqn:Ho2; try done.
      destruct Hall as [Hrep2 Hwf2]. split; [|done].
      pose proof (repr_in_dom _ _ _ _ Hrep2) as Hdom2.
      pose proof (Hdisj t2 this _ _ Hne Ho2 Ho) as Hd. simpl in Hd.
      eapply repr_frame; [done|]. intros l' ?. apply Hfr; set_solver.
  - intros t1 t2 o1 o2 Hne Ho1 Ho2.
    destruct (decide (t1 = this)) as [->|Hne1]; [|destruct (decide (t2 = this)) as [->|Hne2]].
    + rewrite lookup_insert_eq in Ho1. rewrite lookup_insert_ne in Ho2 by done.
      injection Ho1 as <-. simpl. destruct o2 as [tr2 F2].
      pose proof (Hdisj this t2 _ _ Hne Ho Ho2) as Hd. simpl in Hd |- *.
      specialize (Hall t2). rewrite Ho2 in Hall.
      destruct (roots s !! t2); [|done]. destruct Hall as [Hrep2 _].
      pose proof (repr_in_dom _ _ _ _ Hrep2). set_solver.
    + rewrite lookup_insert_eq in Ho2. rewrite lookup_insert_ne in Ho1 by done.
      injection Ho2 as <-. simpl. destruct o1 as [tr1 F1].
      pose proof (Hdisj t1 this _ _ Hne1 Ho1 Ho) as Hd. simpl in Hd |- *.
      specialize (Hall t1). rewrite Ho1 in Hall.
      destruct (roots s !! t1); [|done]. destruct Hall as [Hrep1 _].
      pose proof (repr_in_dom _ _ _ _ Hrep1). set_solver.
    + rewrite lookup_insert_ne in Ho1, Ho2 by done.
      exact (Hdisj t1 t2 o1 o2 Hne Ho1 Ho2).
Qed.

(** A mutation of one object is the mutation of its tree; every other object
    keeps its tree. *)
Lemma mutate_separated s owned this t F m :
  separated s owned → owned !! this = Some (t, F) →
  ∃ F', separated (mutate this m s) (<[this := (mutated m t, F')]> owned).
Proof.
  intros Hsep Ho. destruct (separated_lookup _ _ _ _ _ Hsep Ho) as (r & Hr & Hrep & Hwf).
  destruct m as [key v|key|key]; simpl.
  - destruct (h_insert_from_spec key _ _ _ _ v Hrep Hwf) as (F' & Hrep' & Hfr & Hsub).
    exists F'. unfold h_insert. rewrite Hr.
    eapply separated_update; eauto. by apply wf_insert_from.
  - destruct (h_index_from_spec key _ _ _ _ Hrep Hwf) as (_ & F' & Hrep' & Hfr & Hsub).
    exists F'. unfold h_index, operator_index. rewrite Hr.
    destruct (h_index_from (nodes s) r key) as [σ' slot].
    pose proof (wf_index_from (root_ t) key Hwf) as Hwf'.
    destruct (index_from (root_ t) key) as [r' slot']. simpl in *.
    eapply separated_update; eauto.
  - destruct (h_remove_spec key _ _ _ _ Hrep Hwf) as (_ & F' & Hrep' & Hfr & Hsub).
    exists F'. unfold h_erase. rewrite Hr, erase_unfold.
    destruct (h_remove (nodes s) r key) as [removed σ']. simpl in *.
    eapply separated_update; eauto. by apply wf_remove.
Qed.

Lemma mutate_all_separated ms : ∀ s owned this t F,
  separated s owned → owned !! this = Some (t, F) →
  ∃ owned', separated (mutate_all this ms s) owned' ∧
            ∀ other, other ≠ this → owned' !! other = owned !! other.
Proof.
  induction ms as [|m ms IH]; intros s owned this t F Hsep Ho; simpl.
  - by exists owned.
  - destruct (mutate_separated _ _ _ _ _ m Hsep Ho) as (F' & Hsep').
    destruct (IH _ _ this (mutated m t) F' Hsep') as (owned' & Hsep'' & Hsame).
    { by rewrite lookup_insert_eq. }
    exists owned'. split; [done|]. intros other Hne.
    by rewrite Hsame, lookup_insert_ne.
Qed.

(** Mutating one object leaves the answers of every other object. *)
Lemma mutate_all_frame s owned this other ms q :
  separated s owned → is_Some (owned !! this) → is_Some (owned !! other) → other ≠ this →
  ask other q (mutate_all this ms s) = ask other q s.
Proof.
  intros Hsep [[t F] Ho] [[t2 F2] Ho2] Hne.
  destruct (mutate_all_separated ms _ _ _ _ _ Hsep Ho) as (owned' & Hsep' & Hsame).
  rewrite (ask_answer _ _ _ _ _ q Hsep Ho2).
  apply (ask_answer _ owned' _ t2 F2 q Hsep'). by rewrite Hsame.
Qed.

(** Copy assignment between different objects: enough fuel, and the target
    owns a tree equal to the source's, built from fresh nodes. *)
Lemma copy_assign_separated fuel s owned this other a Fa b Fb :
  separated s owned → owned !! this = Some (a, Fa) → owned !! other = Some (b, Fb) →
  this ≠ other → height (root_ b) ≤ fuel →
  ∃ s' F', copy_assign fuel this other s = Some s' ∧
           separated s' (<[this := (b, F')]> owned).
Proof.
  intros Hsep Ha Hb Hne Hfuel.
  destruct (separated_lookup _ _ _ _ _ Hsep Ha) as (old & Hold & Hrepa & Hwfa).
  destruct (separated_lookup _ _ _ _ _ Hsep Hb) as (r & Hr & Hrepb & Hwfb).
  destruct (h_clone_spec fuel _ _ _ _ Hrepb Hwfb Hfuel)
    as (σ1 & copy & F' & Hcl & Hrep' & Hfresh & Hag & Hdom).
  unfold copy_assign. rewrite decide_False by done. rewrite Hold, Hr. simpl. rewrite Hcl. simpl.
  eexists _, F'. split; [done|].
  pose proof (repr_in_dom _ _ _ _ Hrepa) as Hdoma.
  assert (repr σ1 old (root_ a) Fa) as Hrepa1.
  { eapply repr_frame; [done|]. intros x ?. apply Hag. set_solver. }
  assert (∀ x, x ∉ Fa → h_destroy fuel σ1 old !! x = σ1 !! x) as Hdes
    by (intros x ?; by eapply h_destroy_frame).
  destruct Hsep as [Hall Hdisj]. split.
  - intros t2. simpl. destruct (decide (t2 = this)) as [->|Hne2].
    + rewrite !lookup_insert_eq. split; [|done].
      eapply repr_frame; [done|]. intros x ?. apply Hdes. set_solver.
    + rewrite !lookup_insert_ne by done. specialize (Hall t2).
      destruct (roots s !! t2) as [r2|], (owned !! t2) as [[tr2 F2]|] eqn:Ho2; try done.
      destruct Hall as [Hrep2 Hwf2]. split; [|done].
      pose proof (repr_in_dom _ _ _ _ Hrep2) as Hdom2.
      pose proof (Hdisj t2 this _ _ Hne2 Ho2 Ha) as Hd. simpl in Hd.
      eapply repr_frame; [done|]. intros x ?.
      rewrite Hdes by set_solver. apply Hag. set_solver.
  - intros t1 t2 o1 o2 Hne12 Ho1 Ho2.
    destruct (decide (t1 = this)) as [->|Hne1]; [|destruct (decide (t2 = this)) as [->|Hne2]].
    + rewrite lookup_insert_eq in Ho1. rewrite lookup_insert_ne in Ho2 by done.
      injection Ho1 as <-. simpl. destruct o2 as [tr2 F2]. simpl.
      specialize (Hall t2). rewrite Ho2 in Hall.
      destruct (roots s !! t2); [|done]. destruct Hall as [Hrep2 _].
      pose proof (repr_in_dom _ _ _ _ Hrep2). set_solver.
    + rewrite lookup_insert_eq in Ho2. rewrite lookup_insert_ne in Ho1 by done.
      injection Ho2 as <-. simpl. destruct o1 as [tr1 F1]. simpl.
      specialize (Hall t1). rewrite Ho1 in Hall.
      destruct (roots s !! t1); [|done]. destruct Hall as [Hrep1 _].
      pose proof (repr_in_dom _ _ _ _ Hrep1). set_solver.
    + rewrite lookup_insert_ne in Ho1, Ho2 by done.
      exact (Hdisj t1 t2 o1 o2 Hne12 Ho1 Ho2).
Qed.

Lemma well_separated_init : well_separated (init (E:=E) (V:=V)).
Proof.
  exists ∅. split.
  - intros this. simpl. by rewrite !lookup_empty.
  - intros t1 t2 o1 o2 _ Ho1. by rewrite lookup_empty in Ho1.
Qed.

Lemma well_separated_construct s this :
  well_separated s → roots s !! this = None → well_separated (construct this s).
Proof.
  intros [owned [Hall Hdisj]] Hnone. unfold construct, make_unique.
  set (l := fresh (dom (nodes s))).
  pose proof (is_fresh (dom (nodes s))) as Hfresh. fold l in Hfresh.
  assert (owned !! this = None) as Hnone'.
  { specialize (Hall this). rewrite Hnone in Hall. by destruct (owned !! this). }
  assert (∀ (j : positive) tr2 F2, owned !! j = Some (tr2, F2) → F2 ⊆ dom (nodes s)) as Hsub.
  { intros j tr2 F2 Ho2. specialize (Hall j). rewrite Ho2 in Hall.
    destruct (roots s !! j); [|done]. destruct Hall as [Hrep _].
    by eapply repr_in_dom. }
  exists (<[this := (empty, {[l]})]> owned). split.
  - intros t2. simpl. destruct (decide (t2 = this)) as [->|Hne].
    + rewrite !lookup_insert_eq. split; [|done].
      apply repr_new_node. by rewrite lookup_insert_eq.
    + rewrite !lookup_insert_ne by done. specialize (Hall t2).
      destruct (roots s !! t2) as [r2|], (owned !! t2) as [[tr2 F2]|] eqn:Ho2; try done.
      destruct Hall as [Hrep2 Hwf2]. split; [|done].
      eapply repr_frame; [done|]. intros x Hx.
      rewrite lookup_insert_ne; [done|]. intros <-. apply Hfresh.
      by apply (Hsub _ _ _ Ho2).
  - intros t1 t2 o1 o2 Hne Ho1 Ho2.
    destruct (decide (t1 = this)) as [->|Hne1]; [|destruct (decide (t2 = this)) as [->|Hne2]].
    + rewrite lookup_insert_eq in Ho1. rewrite lookup_insert_ne in Ho2 by done.
      injection Ho1 as <-. destruct o2 as [tr2 F2]. simpl.
      pose proof (Hsub _ _ _ Ho2). set_solver.
    + rewrite lookup_insert_eq in Ho2. rewrite lookup_insert_ne in Ho1 by done.
      injection Ho2 as <-. destruct o1 as [tr1 F1]. simpl.
      pose proof (Hsub _ _ _ Ho1). set_solver.
    + rewrite lookup_insert_ne in Ho1, Ho2 by done.
      exact (Hdisj t1 t2 o1 o2 Hne Ho1 Ho2).
Qed.

Lemma well_separated_mutate s this m : well_separated s → well_separated (mutate this m s).
Proof.
  intros [owned Hsep]. destruct (roots s !! this) as [r|] eqn:Hr.
  - destruct (separated_owned _ _ _ _ Hsep Hr) as (t & F & Ho).
    destruct (mutate_separated _ _ _ _ _ m Hsep Ho) as (F' & Hsep'). by eexists.
  - exists owned. destruct m; simpl; unfold h_insert, h_index, h_erase; by rewrite Hr.
Qed.

(** C7.  Copy assignment, with [CloneNode] read as [clone]: assigning a trie
    to itself changes nothing; assigning [other] to a different object [this]
    succeeds once the fuel covers the height of [other], after which [this]
    answers every query as [other] does, and no sequence of [insert],
    [operator[]] and [erase] on either object changes an answer of the other:
    the two own disjoint sets of nodes. *)
Theorem copy_assign_independent s this other :
  well_separated s → this ≠ other →
  is_Some (roots s !! this) → is_Some (roots s !! other) →
  (∀ fuel, copy_assign fuel this this s = Some s) ∧
  ∃ fuel0, ∀ fuel, fuel0 ≤ fuel →
    ∃ s', copy_assign fuel this other s = Some s' ∧
          well_separated s' ∧
          (∀ q, ask this q s' = ask other q s ∧ ask other q s' = ask other q s) ∧
          (∀ ms q, ask other q (mutate_all this ms s') = ask other q s' ∧
                   ask this q (mutate_all other ms s') = ask this q s').
Proof.
  intros [owned Hsep] Hne [old Hold] [r Hr]. split.
  { intros fuel. unfold copy_assign. by rewrite decide_True. }
  destruct (separated_owned _ _ _ _ Hsep Hold) as (a & Fa & Ha).
  destruct (separated_owned _ _ _ _ Hsep Hr) as (b & Fb & Hb).
  exists (height (root_ b)). intros fuel Hfuel.
  destruct (copy_assign_separated fuel _ _ _ _ _ _ _ _ Hsep Ha Hb Hne Hfuel)
    as (s' & F' & Hcopy & Hsep').
  assert (<[this:=(b, F')]> owned !! this = Some (b, F')) as Hthis
    by by rewrite lookup_insert_eq.
  assert (<[this:=(b, F')]> owned !! other = Some (b, Fb)) as Hother
    by by rewrite lookup_insert_ne.
  exists s'. split_and!; [done|by eexists| |].
  - intros q. rewrite (ask_answer _ _ _ _ _ q Hsep' Hthis).
    rewrite (ask_answer _ _ _ _ _ q Hsep' Hother).
    by rewrite (ask_answer _ _ _ _ _ q Hsep Hb).
  - intros ms q. split.
    + apply (mutate_all_frame _ _ _ _ _ _ Hsep'); [by eexists|by eexists|done].
    + apply (mutate_all_frame _ _ _ _ _ _ Hsep'); [by eexists|by eexists|done].
Qed.

End Theory.
End HeapFacts.

(** * The scenarios of the test suite and of the specification *)

Module ScenarioFacts.
Import Trie ChildMapFacts TrieFacts Scenarios.

(** ** The assertions of [trie_test.cc] *)

Example test_InsertAndPrefix :
  let t : StringTrie := insert (key_of "hello") 1%Z empty in
  prefix (key_of "") t = true ∧ prefix (key_of "hel") t = true ∧
  prefix (key_of "hello") t = true ∧ prefix (key_of "helloo") t = false ∧
  prefix (key_of "world") t = false.
Proof. by repeat split. Qed.

Example test_InsertOverwrite :
  get (key_of "hello") (insert (key_of "hello") 2%Z (insert (key_of "hello") 1%Z empty))
  = Some 2%Z.
Proof. reflexivity. Qed.

Example test_OperatorBracketModify :
  let t : StringTrie := insert (key_of "hello") 1%Z empty in
  (index_assign (key_of "hello") 100%Z t ≫= λ t', get (key_of "hello") t') = Some 100%Z.
Proof. reflexivity. Qed.

Example test_RemoveNonExisting :
  let t : StringTrie := insert (key_of "hello") 1%Z empty in
  (erase (key_of "world") t).1 = false ∧ (erase (key_of "hell") t).1 = false.
Proof. by split. Qed.

Example test_RemovePrefixKey :
  let t := (erase (key_of "hel") hel_hello).2 in
  (erase (key_of "hel") hel_hello).1 = true ∧ match_ (key_of "hel") t = false ∧
  match_ (key_of "hello") t = true ∧ prefix (key_of "hel") t = true.
Proof. by repeat split. Qed.

Example test_RemoveLongerKey :
  let t := (erase (key_of "hello") hel_hello).2 in
  (erase (key_of "hello") hel_hello).1 = true ∧ match_ (key_of "hel") t = true ∧
  match_ (key_of "hello") t = false ∧ prefix (key_of "hello") t = false.
Proof. by repeat split. Qed.

Example test_VectorKey :
  let t : Trie (E:=Z) (V:=string) := insert [1; 2; 3]%Z "foo" empty in
  match_ [1; 2; 3]%Z t = true ∧ prefix [1; 2]%Z t = true ∧ match_ [1; 2]%Z t = false.
Proof. by repeat split. Qed.

(** ** The worked example and the failing cases *)

(** C5.  The worked example of the renderer: the twelve insertions render as
    the eight lines of the specification, joined by newlines, with no
    newline at the end. *)
Theorem rendering_worked_example : to_string worked_example = worked_rendering.
Proof. vm_compute. reflexivity. Qed.

(** C6, as stated, fails on [nested_branch]: popping the anchor only after
    the last child has been rendered leaves the bar of the branch at ["a"]
    on the row of ["e"], which the source does not draw. *)
Lemma pop_after_last_child_differs :
  to_string nested_branch
    = String.concat newline ["a-(b)"; " `-c-(d)"; "    `-(e)"] ∧
  to_string_as_specified nested_branch
    = String.concat newline ["a-(b)"; " `-c-(d)"; " |  `-(e)"] ∧
  to_string_as_specified nested_branch ≠ to_string nested_branch.
Proof. split_and!; [vm_compute; reflexivity..|]. vm_compute. discriminate. Qed.

(** C4.  Structural minimality after an indexed access to a key that holds
    no value: on the empty trie, [trie["a"]] creates the node for ['a'] and
    gives it no value, so a node with neither value nor children is in the
    tree and the invariant does not hold after this one-call sequence.  The
    slot the call dereferences is empty, and so an assignment through the
    returned reference has no defined effect either. *)
Theorem index_breaks_minimality :
  run [OpIndex (key_of "a")] (empty : StringTrie)
    = mkTrie (mkNode None [("a"%char, mkNode None [])]) ∧
  minimal (run [OpIndex (key_of "a")] (empty : StringTrie)) = false ∧
  operator_index (key_of "a") (empty : StringTrie)
    = (mkTrie (mkNode None [("a"%char, mkNode None [])]), None) ∧
  index_assign (key_of "a") 1%Z (empty : StringTrie) = None.
Proof. by repeat split. Qed.

Lemma erase_correct_witness :
  wf hel_hello = true ∧
  ((get (key_of "hello") hel_hello = None →
      erase (key_of "hello") hel_hello = (false, hel_hello) ∧
      to_string (erase (key_of "hello") hel_hello).2 = to_string hel_hello) ∧
   (∀ v, get (key_of "hello") hel_hello = Some v →
      (erase (key_of "hello") hel_hello).1 = true ∧
      match_ (key_of "hello") (erase (key_of "hello") hel_hello).2 = false ∧
      get (key_of "hello") (erase (key_of "hello") hel_hello).2 = None)).
Proof.
  split; [reflexivity|]. apply (erase_correct hel_hello (key_of "hello")). reflexivity.
Defined.

Lemma erase_non_interference_witness :
  wf hel_hello = true ∧ key_of "hello" ≠ key_of "hel" ∧
  match_ (key_of "hello") hel_hello = true ∧ match_ (key_of "hel") hel_hello = true ∧
  match_ (key_of "hel") (erase (key_of "hello") hel_hello).2 = match_ (key_of "hel") hel_hello ∧
  get (key_of "hel") (erase (key_of "hello") hel_hello).2 = get (key_of "hel") hel_hello ∧
  prefix (key_of "hel") (erase (key_of "hello") hel_hello).2 = prefix (key_of "hel") hel_hello ∧
  (prefix (key_of "hello") (erase (key_of "hello") hel_hello).2 = true ↔
   key_of "hello" = [] ∨ ∃ c, prefix (key_of "hello" ++ [c]) hel_hello = true).
Proof.
  split; [reflexivity|]. split; [discriminate|].
  split; [reflexivity|]. split; [reflexivity|].
  apply (erase_non_interference hel_hello (key_of "hello") (key_of "hel"));
    [reflexivity|discriminate|reflexivity|reflexivity].
Defined.

Lemma minimality_in_contract_witness :
  in_contract contract_run empty = true ∧
  minimal (run contract_run empty) = true ∧ wf (run contract_run empty) = true.
Proof.
  split; [reflexivity|]. apply (minimality_in_contract contract_run). reflexivity.
Defined.

Lemma index_in_contract_witness :
  wf hel_hello = true ∧ match_ (key_of "hello") hel_hello = true ∧
  ∃ v, get (key_of "hello") hel_hello = Some v ∧
       operator_index (key_of "hello") hel_hello = (hel_hello, Some v) ∧
       ∀ v', index_assign (key_of "hello") v' hel_hello
               = Some (insert (key_of "hello") v' hel_hello) ∧
             get (key_of "hello") (insert (key_of "hello") v' hel_hello) = Some v'.
Proof.
  split; [reflexivity|]. split; [reflexivity|].
  apply (index_in_contract hel_hello (key_of "hello")); reflexivity.
Defined.

(** The object at 1 is assigned the trie at 2 and then changed: it gains
    ["help"] and loses ["hel"], and the object at 2 answers as before. *)
Example copy_then_mutate :
  let s1 := default two_tries (Heap.copy_assign 4 1 2 two_tries) in
  let s2 := Heap.mutate_all 1
              [Heap.MInsert (key_of "help") 7%Z; Heap.MErase (key_of "hel")] s1 in
  Heap.h_get 1 (key_of "hel") s1 = Some 1%Z ∧
  Heap.h_get 1 (key_of "hel") s2 = None ∧ Heap.h_get 1 (key_of "help") s2 = Some 7%Z ∧
  Heap.h_get 2 (key_of "hel") s2 = Some 1%Z ∧ Heap.h_prefix 2 (key_of "help") s2 = false.
Proof. vm_compute. by repeat split. Qed.

Lemma two_tries_separated : Heap.well_separated two_tries.
Proof.
  apply HeapFacts.well_separated_mutate, HeapFacts.well_separated_construct;
    [apply HeapFacts.well_separated_construct|];
    [apply HeapFacts.well_separated_init|reflexivity..].
Qed.

Lemma copy_assign_independent_witness :
  Heap.well_separated two_tries ∧ (1 ≠ 2)%positive ∧
  is_Some (Heap.roots two_tries !! 1%positive) ∧
  is_Some (Heap.roots two_tries !! 2%positive) ∧
  (∀ fuel, Heap.copy_assign fuel 1 1 two_tries = Some two_tries) ∧
  ∃ fuel0, ∀ fuel, fuel0 ≤ fuel →
    ∃ s', Heap.copy_assign fuel 1 2 two_tries = Some s' ∧
          Heap.well_separated s' ∧
          (∀ q, Heap.ask 1 q s' = Heap.ask 2 q two_tries ∧
                Heap.ask 2 q s' = Heap.ask 2 q two_tries) ∧
          (∀ ms q, Heap.ask 2 q (Heap.mutate_all 1 ms s') = Heap.ask 2 q s' ∧
                   Heap.ask 1 q (Heap.mutate_all 2 ms s') = Heap.ask 1 q s').
Proof.
  assert (is_Some (Heap.roots two_tries !! 1%positive)) as H1
    by (vm_compute; eexists; reflexivity).
  assert (is_Some (Heap.roots two_tries !! 2%positive)) as H2
    by (vm_compute; eexists; reflexivity).
  split; [apply two_tries_separated|]. split; [discriminate|].
  split; [exact H1|]. split; [exact H2|].
  apply (HeapFacts.copy_assign_independent two_tries 1 2 two_tries_separated);
    [discriminate|exact H1|exact H2].
Defined.

End ScenarioFacts.

(** * Further properties of the member functions *)

Module MoreFacts.
Import Trie Rendering ChildMapFacts TrieFacts.

Section Theory.
Context {E : Type} `{!Symbol E} {V : Type}.
Implicit Types (c k : E) (key p : list E) (n node child : Node (E:=E) (V:=V))
  (m cs : list (E * Node (E:=E) (V:=V))) (t : Trie (E:=E) (V:=V)) (v : V).

(** ** Lookups after [insert] *)

Lemma get_from_new_node key : get_from (new_node (E:=E) (V:=V)) key = None.
Proof. by destruct key. Qed.

Lemma get_from_child_or_new n c key :
  get_from (child_or_new c n) key = get_from n (c :: key).
Proof.
  unfold child_or_new. simpl.
  destruct (map_find c (children n)); [done|apply get_from_new_node].
Qed.

Lemma get_insert_from_other n key key' v :
  key ≠ key' → get_from (insert_from n key v) key' = get_from n key'.
Proof.
  revert n key'. induction key as [|c rest IH]; intros n key' Hne.
  - destruct key' as [|c' rest']; [done|]. done.
  - destruct key' as [|c' rest']; [done|]. cbn [insert_from get_from children].
    destruct (decide (c = c')) as [<-|Hc].
    + rewrite map_find_set_eq, IH by congruence.
      fold (get_from n (c :: rest')). apply get_from_child_or_new.
    + by rewrite map_find_set_ne.
Qed.

(** X1.  [get] after [insert]: the inserted key yields the new value and
    every other key yields what it yielded before. *)
Theorem get_insert t key key' v :
  get key' (insert key v t) = if decide (key = key') then Some v else get key' t.
Proof.
  unfold get, insert. cbn [root_]. destruct (decide (key = key')) as [<-|Hne].
  - apply get_insert_from.
  - by apply get_insert_from_other.
Qed.

Lemma prefix_from_new_node key :
  prefix_from (new_node (E:=E) (V:=V)) key = bool_decide (key = []).
Proof. by destruct key. Qed.

Lemma prefix_insert_from n key p v :
  prefix_from (insert_from n key v) p = prefix_from n p || bool_decide (p `prefix_of` key).
Proof.
  revert n p. induction key as [|c rest IH]; intros n p.
  - destruct p as [|c' p']; [done|]. cbn [insert_from prefix_from children].
    rewrite bool_decide_eq_false_2; [by rewrite orb_false_r|].
    by intros ?%prefix_nil_not.
  - destruct p as [|c' p']; [done|]. cbn [insert_from prefix_from children].
    destruct (decide (c = c')) as [<-|Hc].
    + rewrite map_find_set_eq, IH.
      rewrite (bool_decide_ext (c :: p' `prefix_of` c :: rest) (p' `prefix_of` rest))
        by (split; [apply prefix_cons_inv_2|apply prefix_cons]).
      unfold child_or_new. destruct (map_find c (children n)); [done|].
      rewrite prefix_from_new_node.
      destruct p' as [|c2 p2]; [|done].
      by rewrite (bool_decide_eq_true_2 ([] `prefix_of` rest)) by apply prefix_nil.
    + rewrite map_find_set_ne by done.
      rewrite (bool_decide_eq_false_2 (c' :: p' `prefix_of` c :: rest));
        [by rewrite orb_false_r|].
      intros ?%prefix_cons_inv_1. congruence.
Qed.

(** X2.  [prefix] after [insert]: a key is a valid prefix afterwards exactly
    when it was one before or it is a prefix of the inserted key (the empty
    prefix and the key itself included). *)
Theorem prefix_insert t key p v :
  prefix p (insert key v t) = prefix p t || bool_decide (p `prefix_of` key).
Proof. apply prefix_insert_from. Qed.

(** ** How insertions compose *)

Lemma map_set_set c n n' m : map_set c n (map_set c n' m) = map_set c n m.
Proof.
  induction m as [|[k n1] rest IH]; simpl.
  - by rewrite sym_ltb_irrefl.
  - destruct (sym_ltb c k) eqn:Hlt; simpl.
    + by rewrite sym_ltb_irrefl.
    + destruct (sym_ltb k c) eqn:Hgt; simpl.
      * by rewrite Hlt, Hgt, IH.
      * by rewrite Hlt, Hgt.
Qed.

Lemma child_or_new_set c n child :
  child_or_new c (mkNode (value n) (map_set c child (children n))) = child.
Proof. unfold child_or_new. simpl. by rewrite map_find_set_eq. Qed.

Lemma child_or_new_set_ne c c' n child :
  c ≠ c' →
  child_or_new c' (mkNode (value n) (map_set c child (children n))) = child_or_new c' n.
Proof. intros Hne. unfold child_or_new. simpl. by rewrite map_find_set_ne. Qed.

Lemma insert_from_twice n key v1 v2 :
  insert_from (insert_from n key v1) key v2 = insert_from n key v2.
Proof.
  revert n. induction key as [|c rest IH]; intros n; [done|].
  cbn [insert_from value children].
  fold (insert_from (child_or_new c n) rest v1).
  rewrite child_or_new_set, IH, map_set_set. done.
Qed.

(** X3.  Overwrite: inserting a key a second time leaves the trie that a
    single insertion of the second value gives, whatever the trie was. *)
Theorem insert_twice t key v1 v2 :
  insert key v2 (insert key v1 t) = insert key v2 t.
Proof. unfold insert. cbn [root_]. by rewrite insert_from_twice. Qed.

Lemma sym_ltb_asym c k : sym_ltb c k = true → sym_ltb k c = false.
Proof.
  intros Hlt. destruct (sym_ltb k c) eqn:Hgt; [|done].
  pose proof (sym_ltb_trans _ _ _ Hlt Hgt) as Hcc. by rewrite sym_ltb_irrefl in Hcc.
Qed.

Lemma map_set_comm c1 c2 n1 n2 m :
  sorted_keys m = true → c1 ≠ c2 →
  map_set c1 n1 (map_set c2 n2 m) = map_set c2 n2 (map_set c1 n1 m).
Proof.
  intros Hs Hne.
  assert (∀ a b, a ≠ b → sym_ltb a b = false → sym_ltb b a = true) as Hconn.
  { intros a b Hab Hlt. destruct (sym_ltb b a) eqn:Hgt; [done|].
    destruct Hab. by apply sym_ltb_total. }
  assert (sym_ltb c1 c2 = true ∧ sym_ltb c2 c1 = false ∨
          sym_ltb c1 c2 = false ∧ sym_ltb c2 c1 = true) as H12.
  { destruct (sym_ltb c1 c2) eqn:H; [left|right]; split; auto using sym_ltb_asym. }
  induction m as [|[k n] rest IH].
  - simpl. by destruct H12 as [[-> ->]|[-> ->]].
  - specialize (IH (sorted_keys_tail _ _ _ Hs)). simpl.
    destruct (sym_ltb c2 k) eqn:H2k, (sym_ltb c1 k) eqn:H1k; simpl.
    + destruct H12 as [[-> ->]|[-> ->]]; by rewrite ?H1k, ?H2k.
    + assert (sym_ltb c2 c1 = true) as H21.
      { destruct (sym_ltb k c1) eqn:Hk1; [by eapply sym_ltb_trans|].
        assert (c1 = k) as -> by by apply sym_ltb_total. done. }
      rewrite H21, (sym_ltb_asym _ _ H21).
      destruct (sym_ltb k c1) eqn:Hk1; simpl; by rewrite ?H2k, ?H1k, ?Hk1.
    + assert (sym_ltb c1 c2 = true) as H12'.
      { destruct (sym_ltb k c2) eqn:Hk2; [by eapply sym_ltb_trans|].
        assert (c2 = k) as -> by by apply sym_ltb_total. done. }
      rewrite H12', (sym_ltb_asym _ _ H12').
      destruct (sym_ltb k c2) eqn:Hk2; simpl; by rewrite ?H1k, ?H2k, ?Hk2.
    + destruct (sym_ltb k c2) eqn:Hk2, (sym_ltb k c1) eqn:Hk1; simpl;
        rewrite ?H1k, ?H2k, ?Hk1, ?Hk2; try done.
      * by rewrite IH.
      * destruct Hne. transitivity k; [|symmetry]; by apply sym_ltb_total.
Qed.

Lemma insert_from_comm key1 : ∀ key2 n v1 v2,
  wf_node n = true → key1 ≠ key2 →
  insert_from (insert_from n key2 v2) key1 v1 =
  insert_from (insert_from n key1 v1) key2 v2.
Proof.
  induction key1 as [|c1 r1 IH]; intros [|c2 r2] n v1 v2 Hwf Hne; try done.
  cbn [insert_from value children].
  fold (insert_from (child_or_new c2 n) r2 v2).
  fold (insert_from (child_or_new c1 n) r1 v1).
  destruct (decide (c1 = c2)) as [<-|Hc].
  - rewrite !child_or_new_set, !map_set_set.
    rewrite IH; [done|by apply wf_child_or_new|congruence].
  - rewrite !child_or_new_set_ne by done.
    rewrite map_set_comm; [done|by apply wf_node_sorted|done].
Qed.

(** X4.  Insertions of different keys commute: the trie, and with it every
    query answer and the rendering, does not depend on the order in which
    two keys were inserted. *)
Theorem insert_comm t key1 key2 v1 v2 :
  wf t = true → key1 ≠ key2 →
  insert key1 v1 (insert key2 v2 t) = insert key2 v2 (insert key1 v1 t).
Proof.
  intros Hwf Hne. unfold insert. cbn [root_]. f_equal. by apply insert_from_comm.
Qed.

(** ** [insert] followed by [erase] *)

Lemma map_erase_set c n m :
  sorted_keys m = true → map_find c m = None → map_erase c (map_set c n m) = m.
Proof.
  induction m as [|[k n1] rest IH]; intros Hs Hf; simpl.
  - by rewrite sym_eqv_refl.
  - simpl in Hf. destruct (sym_eqv c k) eqn:Heq; [done|].
    destruct (sym_ltb c k) eqn:Hlt; simpl.
    + by rewrite sym_eqv_refl.
    + destruct (sym_ltb k c) eqn:Hgt; simpl.
      * rewrite Heq. f_equal. apply IH; [|done]. exact (sorted_keys_tail _ _ _ Hs).
      * unfold sym_eqv in Heq. by rewrite Hlt, Hgt in Heq.
Qed.

Lemma map_update_update c n n' m : map_update c n (map_update c n' m) = map_update c n m.
Proof.
  induction m as [|[k n1] rest IH]; simpl; [done|].
  destruct (sym_eqv c k) eqn:Heq; simpl; rewrite Heq; [done|]. by rewrite IH.
Qed.

Lemma match_from_new_node key : match_from (new_node (E:=E) (V:=V)) key = false.
Proof. by destruct key. Qed.

Lemma remove_insert_from key : ∀ n v,
  wf_node n = true → minimal_below n = true → match_from n key = false →
  remove (insert_from n key v) key = (true, n).
Proof.
  induction key as [|c rest IH]; intros n v Hwf Hmin Hm.
  - simpl in *. unfold has_value in Hm. destruct n as [[?|] cs]; done.
  - cbn [insert_from remove children value]. rewrite map_find_set_eq.
    unfold child_or_new. simpl in Hm.
    destruct (map_find c (children n)) as [child|] eqn:Hf.
    + destruct (minimal_below_child _ _ _ Hmin Hf) as [Hmc Hminc].
      rewrite (IH child v (wf_node_child _ _ _ Hwf Hf) Hminc Hm).
      unfold meaningful in Hmc.
      assert (negb (has_value child) && no_children child = false) as Hb
        by (destruct (has_value child), (no_children child); done).
      cbn [andb]. rewrite Hb.
      rewrite map_set_update, map_update_update, map_update_id;
        [by destruct n|done|by apply wf_node_sorted|by rewrite Hf].
    + rewrite (IH new_node v eq_refl eq_refl (match_from_new_node rest)).
      cbn [andb has_value no_children new_node value children negb].
      rewrite map_erase_set; [by destruct n|by apply wf_node_sorted|done].
Qed.

(** X5.  Insert then erase is a round trip: on a trie that is structurally
    minimal, inserting a key that held no value and erasing it again returns
    true and leaves exactly the trie there was before, every node that the
    insertion created being released again. *)
Theorem erase_insert t key v :
  wf t = true → minimal t = true → match_ key t = false →
  erase key (insert key v t) = (true, t).
Proof.
  intros Hwf Hmin Hm. unfold erase, insert. cbn [root_].
  rewrite remove_insert_from by done. by destruct t.
Qed.

(** ** What [erase] returns and what it leaves *)

(** X6.  The flag [erase] returns is [match] of the key on the trie before
    the call. *)
Theorem erase_returns_match t key : (erase key t).1 = match_ key t.
Proof. rewrite erase_unfold. apply remove_flag. Qed.

(** X7.  [get] after [erase]: the erased key is absent and every other key,
    stored or not, yields what it yielded before, whether or not the erased
    key held a value. *)
Theorem get_erase t key key' :
  wf t = true →
  get key' (erase key t).2 = if decide (key = key') then None else get key' t.
Proof.
  intros Hwf. rewrite erase_unfold. unfold get. cbn [snd root_].
  destruct (decide (key = key')) as [<-|Hne].
  - by apply get_remove_same.
  - by apply get_remove_other.
Qed.

(** X8.  Erasing a key twice: the second call finds nothing, returns false
    and changes nothing. *)
Theorem erase_twice t key :
  wf t = true → erase key (erase key t).2 = (false, (erase key t).2).
Proof.
  intros Hwf. rewrite (erase_unfold (erase key t).2).
  rewrite erase_unfold. cbn [snd root_].
  rewrite remove_noop; [done|].
  by rewrite match_get_from, get_remove_same.
Qed.

Lemma prefix_remove_was n key p :
  wf_node n = true → prefix_from (remove n key).2 p = true → prefix_from n p = true.
Proof.
  revert n p. induction key as [|c rest IH]; intros n p Hwf; cbn [remove].
  - destruct (value n); [|done]. by destruct p.
  - destruct (map_find c (children n)) as [child|] eqn:Hf; [|done].
    pose proof (IH child) as IHc.
    destruct (remove child rest) as [removed child']. cbn [snd] in IHc.
    destruct p as [|c' p']; [done|].
    destruct (removed && negb (has_value child') && no_children child');
      cbn [snd prefix_from children].
    + destruct (decide (c = c')) as [<-|Hc].
      * rewrite map_find_erase_eq; [done|by apply wf_node_sorted].
      * by rewrite map_find_erase_ne.
    + destruct (decide (c = c')) as [<-|Hc].
      * rewrite map_find_update_eq, Hf by by rewrite Hf.
        apply IHc. by eapply wf_node_child.
      * by rewrite map_find_update_ne.
Qed.

(** X9.  [erase] creates no path: a key that is a valid prefix after an
    erase was one before it. *)
Theorem prefix_erase_was t key p :
  wf t = true → prefix p (erase key t).2 = true → prefix p t = true.
Proof. intros Hwf. rewrite erase_unfold. by apply prefix_remove_was. Qed.

(** ** Structural minimality *)

(** X10.  [insert] and [erase] keep the trie structurally minimal: if no node
    below the root lacked both value and children before the call, none does
    after it; [erase] removes every node it empties. *)
Theorem insert_erase_minimal t key v :
  minimal t = true →
  minimal (insert key v t) = true ∧ minimal (erase key t).2 = true.
Proof.
  intros Hmin. split.
  - by apply minimal_insert_from.
  - rewrite erase_unfold. by apply minimal_remove.
Qed.

Lemma meaningful_reaches_value n :
  meaningful n = true → minimal_below n = true → ∃ key, match_from n key = true.
Proof.
  induction n as [o cs IH] using Node_ind_children. intros Hm Hmin.
  destruct o as [v0|]; [by exists []|].
  destruct cs as [|[c child] cs]; [done|].
  pose proof (proj1 (minimal_below_iff _) Hmin) as Hall. cbn [children] in Hall.
  destruct (Hall c child) as [Hmc Hminc]; [apply elem_of_cons; by left|].
  destruct (IH c child) as [key Hkey]; [apply elem_of_cons; by left|done|done|].
  exists (c :: key). simpl. by rewrite sym_eqv_refl.
Qed.

Lemma prefix_from_extends n c p :
  minimal_below n = true → prefix_from n (c :: p) = true →
  ∃ s, match_from n ((c :: p) ++ s) = true.
Proof.
  revert n c. induction p as [|c' p IH]; intros n c Hmin Hp; simpl in Hp.
  - destruct (map_find c (children n)) as [child|] eqn:Hf; [|done].
    destruct (minimal_below_child _ _ _ Hmin Hf) as [Hmc Hminc].
    destruct (meaningful_reaches_value child Hmc Hminc) as [s Hs].
    exists s. simpl. by rewrite Hf.
  - destruct (map_find c (children n)) as [child|] eqn:Hf; [|done].
    destruct (minimal_below_child _ _ _ Hmin Hf) as [_ Hminc].
    destruct (IH child c' Hminc Hp) as [s Hs].
    exists s. simpl. rewrite Hf. exact Hs.
Qed.

Lemma prefix_from_of_match n p s :
  match_from n (p ++ s) = true → prefix_from n p = true.
Proof.
  intros Hs. apply match_prefix_from in Hs.
  revert n Hs. induction p as [|c p IH]; intros n; [done|].
  simpl. destruct (map_find c (children n)); [apply IH|done].
Qed.

(** X11.  On a structurally minimal trie [prefix] means what its name says:
    a non-empty key is a valid prefix exactly when some key that holds a
    value starts with it. *)
Theorem prefix_iff_stored t p :
  minimal t = true → p ≠ [] →
  prefix p t = true ↔ ∃ s, match_ (p ++ s) t = true.
Proof.
  intros Hmin Hne. split.
  - destruct p as [|c p]; [done|]. by apply prefix_from_extends.
  - intros [s Hs]. exact (prefix_from_of_match _ _ _ Hs).
Qed.

(** X12.  Valid prefixes are closed under shortening, on every trie: if a key
    is a valid prefix, so is each of its own prefixes; and a key that
    matches is a valid prefix. *)
Theorem prefix_closed t p s :
  (prefix (p ++ s) t = true → prefix p t = true) ∧
  (match_ p t = true → prefix p t = true).
Proof.
  split; [|apply match_prefix_from].
  unfold prefix. generalize (root_ t). induction p as [|c p IH]; intros n; [done|].
  simpl. destruct (map_find c (children n)); [apply IH|done].
Qed.

(** ** [operator[]] on arbitrary keys *)










(** ** The default-constructed trie *)

(** X17.  On the trie that [Trie()] constructs no key holds a value, only the
    empty key is a valid prefix, [erase] of any key returns false and leaves
    the trie empty, and the rendering is the empty text. *)
Theorem empty_trie key :
  get key (empty (E:=E) (V:=V)) = None ∧
  match_ key (empty (E:=E) (V:=V)) = false ∧
  prefix key (empty (E:=E) (V:=V)) = bool_decide (key = []) ∧
  erase key (empty (E:=E) (V:=V)) = (false, empty) ∧
  to_string (empty (E:=E) (V:=V)) = "".
Proof.
  split_and!.
  - apply get_from_new_node.
  - apply match_from_new_node.
  - apply prefix_from_new_node.
  - rewrite erase_unfold. cbn [empty root_].
    by rewrite remove_noop by apply match_from_new_node.
  - done.
Qed.

(** ** The renderer *)

Lemma str_app_assoc (a b d : string) : (a +:+ b) +:+ d = a +:+ (b +:+ d).
Proof.
  induction a as [|x a IH]; [done|].
  change (String x ((a +:+ b) +:+ d) = String x (a +:+ (b +:+ d))). by rewrite IH.
Qed.

Lemma str_app_nil_r (a : string) : a +:+ "" = a.
Proof.
  induction a as [|x a IH]; [done|].
  change (String x (a +:+ "") = String x a). by rewrite IH.
Qed.

Lemma pop_back_newline (a : string) : pop_back (a +:+ newline) = a.
Proof.
  induction a as [|x a IH]; [done|].
  change (String x a +:+ newline) with (String x (a +:+ newline)).
  cbn [pop_back]. rewrite IH. by destruct a.
Qed.

Lemma join_fold (lines : list string) : ∀ acc,
  fold_left (λ out line, out +:+ line +:+ newline) lines acc =
  acc +:+ foldr (λ line r, line +:+ newline +:+ r) "" lines.
Proof.
  induction lines as [|line lines IH]; intros acc; cbn [fold_left foldr].
  - by rewrite str_app_nil_r.
  - by rewrite IH, !str_app_assoc.
Qed.

Lemma join_body (line : string) (lines : list string) :
  foldr (λ line r, line +:+ newline +:+ r) "" (line :: lines) =
  String.concat newline (line :: lines) +:+ newline.
Proof.
  revert line. induction lines as [|l2 lines IH]; intros line.
  - cbn [foldr String.concat]. by rewrite str_app_nil_r.
  - change (String.concat newline (line :: l2 :: lines))
      with (line +:+ newline +:+ String.concat newline (l2 :: lines)).
    change (foldr (λ line r, line +:+ newline +:+ r) "" (line :: l2 :: lines))
      with (line +:+ newline +:+ foldr (λ line r, line +:+ newline +:+ r) "" (l2 :: lines)).
    by rewrite IH, !str_app_assoc.
Qed.

(** Joining with [out.append(line).append("\n")] and dropping the last
    character gives the lines separated by newlines. *)
Lemma join_lines (lines : list string) :
  (let out := fold_left (λ out line, out +:+ line +:+ newline) lines "" in
   match out with EmptyString => out | String _ _ => pop_back out end) =
  String.concat newline lines.
Proof.
  cbn zeta. rewrite join_fold. change ("" +:+ ?x) with x.
  destruct lines as [|line lines]; [done|].
  rewrite join_body.
  destruct (String.concat newline (line :: lines) +:+ newline) eqn:Hout.
  - destruct (String.concat newline (line :: lines)); done.
  - rewrite <- Hout. apply pop_back_newline.
Qed.

Lemma to_string_lines t : to_string t = String.concat newline (render_lines t).
Proof.
  unfold to_string, render_lines.
  destruct (children (root_ t)) as [|p cs] eqn:Hcs; [done|].
  apply join_lines.
Qed.

Lemma back_append_length (lines : list string) (s : string) :
  length (back_append lines s) = length lines.
Proof.
  induction lines as [|l1 [|l2 lines] IH]; [done|done|].
  change (back_append (l1 :: l2 :: lines) s) with (l1 :: back_append (l2 :: lines) s).
  simpl in *. by rewrite IH.
Qed.

Lemma leaves_pos n : 0 < leaves n.
Proof.
  induction n as [o cs IH] using Node_ind_children.
  destruct cs as [|[c child] cs]; [simpl; lia|].
  assert (0 < leaves child) by (apply (IH c), elem_of_cons; by left).
  simpl. lia.
Qed.

(** The loop over the children of a node adds one line per leaf below them,
    except that the first child continues the line that is open. *)
Lemma children_loop_length anchor total (l : list (E * Node (E:=E) (V:=V))) :
  (∀ c child, (c, child) ∈ l → ∀ sym rel (lines : list string), 0 < length lines →
     length (partial child sym rel lines) + 1 = length lines + leaves child) →
  ∀ first count rel (lines : list string), 0 < length lines →
    length (children_loop partial anchor total l first count rel lines)
      + (if first then match l with [] => 0 | _ :: _ => 1 end else 0)
    = length lines + list_sum (map (λ q, leaves q.2) l).
Proof.
  induction l as [|[c child] rest IH]; intros Hall first count rel lines Hlen.
  { cbn [children_loop map list_sum]. destruct first; simpl; lia. }
  assert (∀ sym rel (lines : list string), 0 < length lines →
            length (partial child sym rel lines) + 1 = length lines + leaves child) as Hch
    by (apply (Hall c), elem_of_cons; by left).
  assert (∀ c' child', (c', child') ∈ rest → ∀ sym rel (lines : list string),
            0 < length lines →
            length (partial child' sym rel lines) + 1 = length lines + leaves child') as Hrest
    by (intros c' child' Hin; apply (Hall c'), elem_of_cons; by right).
  pose proof (leaves_pos child) as Hpos.
  cbn [children_loop map list_sum snd]. destruct first.
  - set (lines1 := back_append lines "-").
    assert (length lines1 = length lines) as Hl1 by apply back_append_length.
    pose proof (Hch c rel lines1 ltac:(lia)) as Hp.
    pose proof (IH Hrest false (S count) rel (partial child c rel lines1) ltac:(lia)) as Hloop.
    change (list_sum (leaves child :: map (λ q, leaves q.2) rest))
      with (leaves child + list_sum (map (λ q, leaves q.2) rest)).
    cbv iota in Hloop. lia.
  - set (rel' := if S count =? total then removelast rel else rel).
    set (lines1 := back_append (lines ++ [""]) (branch_prefix anchor rel' +:+ "`-")).
    assert (length lines1 = length lines + 1) as Hl1.
    { unfold lines1. by rewrite back_append_length, length_app. }
    pose proof (Hch c rel' lines1 ltac:(lia)) as Hp.
    pose proof (IH Hrest false (S count) rel' (partial child c rel' lines1) ltac:(lia)) as Hloop.
    change (list_sum (leaves child :: map (λ q, leaves q.2) rest))
      with (leaves child + list_sum (map (λ q, leaves q.2) rest)).
    cbv iota in Hloop. lia.
Qed.

Lemma partial_length n : ∀ sym rel (lines : list string),
  0 < length lines →
  length (partial n sym rel lines) + 1 = length lines + leaves n.
Proof.
  induction n as [o cs IH] using Node_ind_children. intros sym rel lines Hlen.
  cbn [partial].
  set (lines1 := back_append lines (label (mkNode o cs) sym)).
  assert (length lines1 = length lines) as Hl1 by apply back_append_length.
  destruct cs as [|q cs]; [simpl; lia|].
  set (rel1 := if 1 <? length (q :: cs) then rel ++ [String.length (back lines1)] else rel).
  pose proof (children_loop_length (String.length (back lines1)) (length (q :: cs))
                (q :: cs) IH true 0 rel1 lines1 ltac:(lia)) as Hloop.
  change (leaves (mkNode o (q :: cs))) with (list_sum (map (λ q0, leaves q0.2) (q :: cs))).
  cbv iota in Hloop. lia.
Qed.

Lemma render_lines_length t : length (render_lines t) = rows t.
Proof.
  unfold render_lines, rows.
  assert (∀ (cs : list (E * Node (E:=E) (V:=V))) (lines : list string),
            length (fold_left (λ lines '(key, node), partial node key [] (lines ++ [""]))
                      cs lines)
            = length lines + list_sum (map (λ q, leaves q.2) cs)) as Hgen.
  { induction cs as [|[c child] cs IH]; intros lines; [simpl; lia|].
    cbn [fold_left map snd]. rewrite IH.
    change (list_sum (leaves child :: map (λ q, leaves q.2) cs))
      with (leaves child + list_sum (map (λ q, leaves q.2) cs)).
    pose proof (partial_length child c [] (lines ++ [""])) as Hp.
    rewrite length_app in Hp. simpl in Hp. lia. }
  apply (Hgen _ []).
Qed.

(** X18.  The rendering is the lines of the renderer separated by newlines,
    with no newline after the last, and there is one line for every node
    without children below the root; a trie whose root has no children
    renders as the empty text. *)
Theorem to_string_rows t :
  to_string t = String.concat newline (render_lines t) ∧
  length (render_lines t) = rows t.
Proof. split; [apply to_string_lines|apply render_lines_length]. Qed.

Lemma insert_from_new_node c rest v :
  insert_from (new_node (E:=E) (V:=V)) (c :: rest) v
  = mkNode None [(c, insert_from new_node rest v)].
Proof. reflexivity. Qed.

Lemma partial_chain rest : ∀ c v rel (pre : string),
  partial (insert_from (new_node (E:=E) (V:=V)) rest v) c rel [pre]
  = [pre +:+ chain_text c rest].
Proof.
  induction rest as [|c' rest IH]; intros c v rel pre; [done|].
  rewrite insert_from_new_node. cbn [partial chain_text].
  change (label (mkNode None [(c', insert_from new_node rest v)]) c) with (sym_show c).
  cbn [back_append length Nat.ltb Nat.leb children_loop].
  rewrite IH. by rewrite !str_app_assoc.
Qed.

(** X19.  A trie that holds a single non-empty key renders on one line: the
    symbols of the key joined by [-], the last one in parentheses. *)
Theorem to_string_single_key c rest v :
  to_string (insert (c :: rest) v (empty (E:=E) (V:=V))) = chain_text c rest.
Proof.
  rewrite to_string_lines. unfold render_lines, insert, empty. cbn [root_].
  rewrite insert_from_new_node. cbn [children fold_left app].
  by rewrite partial_chain.
Qed.

Lemma children_loop_cong anchor total (l l' : list (E * Node (E:=E) (V:=V))) :
  Forall2 same_entries l l' →
  ∀ first count rel (lines : list string),
    children_loop partial anchor total l first count rel lines =
    children_loop partial anchor total l' first count rel lines.
Proof.
  induction 1 as [|[c1 n1] [c2 n2] l l' [Hc Hn] _ IH]; intros first count rel lines; [done|].
  simpl in Hc. subst c2. simpl in Hn. cbn [children_loop].
  destruct first; by rewrite Hn, IH.
Qed.

Lemma partial_cong o o' (cs cs' : list (E * Node (E:=E) (V:=V))) :
  has_value (mkNode o cs) = has_value (mkNode o' cs') →
  Forall2 same_entries cs cs' →
  same_rendering (mkNode o cs) (mkNode o' cs').
Proof.
  intros Hv Hcs sym rel lines. cbn [partial].
  assert (label (mkNode o cs) sym = label (mkNode o' cs') sym) as ->
    by (unfold label; by rewrite Hv).
  pose proof (Forall2_length _ _ _ Hcs) as Hlen.
  destruct Hcs as [|p1 p2 l l' Hp Hl]; [done|].
  rewrite Hlen. apply children_loop_cong. by constructor.
Qed.

Lemma same_entries_refl (cs : list (E * Node (E:=E) (V:=V))) :
  Forall2 same_entries cs cs.
Proof. induction cs as [|q cs IH]; constructor; [by split|done]. Qed.

Lemma same_entries_update c child child' (cs : list (E * Node (E:=E) (V:=V))) :
  map_find c cs = Some child → same_rendering child child' →
  Forall2 same_entries cs (map_update c child' cs).
Proof.
  intros Hf Hr. induction cs as [|[k n1] rest IH]; [done|]. simpl in Hf |- *.
  destruct (sym_eqv c k) eqn:Heq.
  - injection Hf as ->. constructor; [done|]. apply same_entries_refl.
  - constructor; [done|auto].
Qed.

Lemma partial_insert_from key : ∀ n v,
  wf_node n = true → match_from n key = true →
  same_rendering n (insert_from n key v).
Proof.
  induction key as [|c rest IH]; intros n v Hwf Hm.
  - destruct n as [o cs]. cbn [insert_from children].
    apply partial_cong; [|apply same_entries_refl].
    simpl in Hm. unfold has_value in *. simpl in *. by destruct o.
  - simpl in Hm. cbn [insert_from]. unfold child_or_new.
    destruct (map_find c (children n)) as [child|] eqn:Hf; [|done].
    rewrite map_set_update; [|by apply wf_node_sorted|by rewrite Hf].
    destruct n as [o cs]. cbn [value children] in *.
    apply partial_cong; [done|].
    apply (same_entries_update c child); [done|].
    apply IH; [|done]. by apply (wf_node_child (mkNode o cs) c).
Qed.

Lemma render_lines_cong (cs cs' : list (E * Node (E:=E) (V:=V))) :
  Forall2 same_entries cs cs' →
  ∀ lines : list string,
    fold_left (λ lines '(key, node), partial node key [] (lines ++ [""])) cs lines =
    fold_left (λ lines '(key, node), partial node key [] (lines ++ [""])) cs' lines.
Proof.
  induction 1 as [|[c1 n1] [c2 n2] l l' [Hc Hn] _ IH]; intros lines; [done|].
  simpl in Hc. subst c2. simpl in Hn. cbn [fold_left]. by rewrite Hn, IH.
Qed.

(** X20.  The rendering shows which keys are stored, not their values:
    storing a new value at a key that already holds one leaves the rendering
    as it was. *)
Theorem to_string_overwrite t key v :
  wf t = true → match_ key t = true →
  to_string (insert key v t) = to_string t.
Proof.
  unfold wf, match_. intros Hwf Hm. rewrite !to_string_lines. f_equal.
  unfold render_lines, insert. cbn [root_].
  destruct key as [|c rest]; [done|].
  simpl in Hm. cbn [insert_from children]. unfold child_or_new.
  destruct (map_find c (children (root_ t))) as [child|] eqn:Hf; [|done].
  rewrite map_set_update; [|by apply wf_node_sorted|by rewrite Hf].
  symmetry. apply render_lines_cong, (same_entries_update c child); [done|].
  apply partial_insert_from; [|done]. by eapply wf_node_child.
Qed.

(** ** Compaction is exact *)

Lemma match_erase t key key' :
  wf t = true →
  match_ key' (erase key t).2 = if decide (key = key') then false else match_ key' t.
Proof.
  intros Hwf. unfold match_. rewrite !match_get_from, erase_unfold.
  cbn [snd root_].
  destruct (decide (key = key')) as [<-|Hne].
  - by rewrite get_remove_same.
  - by rewrite get_remove_other.
Qed.

(** X21.  After an [erase] on a structurally minimal trie, a non-empty key
    is a valid prefix exactly when some key other than the erased one holds
    a value and starts with it: erase removes the paths that only the erased
    key needed, and no others. *)
Theorem prefix_erase_exact t key p :
  wf t = true → minimal t = true → p ≠ [] →
  prefix p (erase key t).2 = true ↔ ∃ s, p ++ s ≠ key ∧ match_ (p ++ s) t = true.
Proof.
  intros Hwf Hmin Hne.
  assert (minimal (erase key t).2 = true) as Hmin'.
  { rewrite erase_unfold. by apply minimal_remove. }
  split.
  - intros Hp. destruct p as [|c p]; [done|].
    destruct (prefix_from_extends _ c p Hmin' Hp) as [s Hs].
    change (match_ ((c :: p) ++ s) (erase key t).2 = true) in Hs.
    exists s. rewrite match_erase in Hs by done.
    destruct (decide (key = (c :: p) ++ s)) as [->|Hk]; [done|]. by split.
  - intros [s [Hk Hs]]. apply (prefix_from_of_match _ _ s).
    change (match_ (p ++ s) (erase key t).2 = true).
    rewrite match_erase by done. by rewrite decide_False by done.
Qed.

(** ** [erase] followed by [insert] *)

Lemma map_erase_absent c m : map_find c m = None → map_erase c m = m.
Proof.
  induction m as [|[k n1] rest IH]; simpl; [done|].
  destruct (sym_eqv c k); [done|]. intros ?. f_equal. auto.
Qed.

Lemma map_set_erase c n m :
  sorted_keys m = true → map_set c n (map_erase c m) = map_set c n m.
Proof.
  induction m as [|[k n1] rest IH]; intros Hs; [done|]. simpl.
  destruct (sym_eqv c k) eqn:Heq.
  - apply sym_eqv_true in Heq as <-. rewrite sym_ltb_irrefl.
    destruct rest as [|[k2 n2] rest]; [done|].
    rewrite sorted_keys_cons in Hs. apply andb_true_iff in Hs as [Hlt _].
    simpl. by rewrite Hlt.
  - simpl. destruct (sym_ltb c k) eqn:Hlt; [|destruct (sym_ltb k c) eqn:Hgt].
    + rewrite map_erase_absent; [done|].
      destruct (map_find c rest) as [x|] eqn:Hf; [|done].
      apply map_find_Some_elem in Hf.
      pose proof (sorted_keys_head_lt _ _ _ _ _ Hs Hf) as Hkc.
      by rewrite (sym_ltb_asym _ _ Hlt) in Hkc.
    + f_equal. apply IH. exact (sorted_keys_tail _ _ _ Hs).
    + unfold sym_eqv in Heq. by rewrite Hlt, Hgt in Heq.
Qed.

Lemma map_update_absent c n m : map_find c m = None → map_update c n m = m.
Proof.
  induction m as [|[k n1] rest IH]; simpl; [done|].
  destruct (sym_eqv c k); [done|]. intros ?. f_equal. auto.
Qed.

Lemma map_set_after_update c n n' m :
  sorted_keys m = true → map_set c n (map_update c n' m) = map_set c n m.
Proof.
  induction m as [|[k n1] rest IH]; intros Hs; [done|]. simpl.
  destruct (sym_eqv c k) eqn:Heq; simpl.
  - apply sym_eqv_true in Heq as <-. by rewrite sym_ltb_irrefl.
  - destruct (sym_ltb c k) eqn:Hlt; [|destruct (sym_ltb k c) eqn:Hgt].
    + rewrite map_update_absent; [done|].
      destruct (map_find c rest) as [x|] eqn:Hf; [|done].
      apply map_find_Some_elem in Hf.
      pose proof (sorted_keys_head_lt _ _ _ _ _ Hs Hf) as Hkc.
      by rewrite (sym_ltb_asym _ _ Hlt) in Hkc.
    + rewrite IH; [done|]. exact (sorted_keys_tail _ _ _ Hs).
    + unfold sym_eqv in Heq. by rewrite Hlt, Hgt in Heq.
Qed.

Lemma bare_is_new n : has_value n = false → no_children n = true → n = new_node.
Proof. unfold has_value, no_children. destruct n as [[?|] [|? ?]]; done. Qed.

Lemma insert_remove_from key : ∀ n v,
  wf_node n = true → insert_from (remove n key).2 key v = insert_from n key v.
Proof.
  induction key as [|c rest IH]; intros n v Hwf; cbn [remove].
  - by destruct (value n).
  - destruct (map_find c (children n)) as [child|] eqn:Hf; [|done].
    pose proof (IH child v (wf_node_child _ _ _ Hwf Hf)) as IHc.
    destruct (remove child rest) as [removed child']. cbn [snd] in IHc.
    pose proof (wf_node_sorted _ Hwf) as Hs.
    destruct (removed && negb (has_value child') && no_children child') eqn:Hb;
      cbn [snd insert_from value children]; unfold child_or_new; cbn [children].
    + apply andb_true_iff in Hb as [[_ Hv%negb_true_iff]%andb_true_iff Hnc].
      rewrite map_find_erase_eq, Hf by done.
      rewrite <- (bare_is_new child' Hv Hnc), IHc. by rewrite map_set_erase.
    + rewrite map_find_update_eq, Hf by by rewrite Hf.
      by rewrite IHc, map_set_after_update.
Qed.

(** X22.  An [erase] before an [insert] of the same key makes no
    difference: the insertion rebuilds whatever the erase removed. *)
Theorem insert_after_erase t key v :
  wf t = true → insert key v (erase key t).2 = insert key v t.
Proof.
  intros Hwf. rewrite erase_unfold. unfold insert. cbn [snd root_].
  by rewrite insert_remove_from.
Qed.

End Theory.
End MoreFacts.

(** * The further properties on the tries of the test suite *)

Module MoreScenarios.
Import Trie Rendering ChildMapFacts TrieFacts MoreFacts Scenarios.

Lemma insert_comm_witness :
  wf hel_hello = true ∧ key_of "help" ≠ key_of "world" ∧
  insert (key_of "help") 3%Z (insert (key_of "world") 4%Z hel_hello)
  = insert (key_of "world") 4%Z (insert (key_of "help") 3%Z hel_hello).
Proof.
  split; [reflexivity|]. split; [discriminate|].
  apply (insert_comm hel_hello (key_of "help") (key_of "world")); [reflexivity|discriminate].
Defined.

Lemma erase_insert_witness :
  wf hel_hello = true ∧ minimal hel_hello = true ∧
  match_ (key_of "help") hel_hello = false ∧
  erase (key_of "help") (insert (key_of "help") 3%Z hel_hello) = (true, hel_hello).
Proof.
  split; [reflexivity|]. split; [reflexivity|]. split; [reflexivity|].
  apply (erase_insert hel_hello (key_of "help") 3%Z); reflexivity.
Defined.

Lemma get_erase_witness :
  wf hel_hello = true ∧
  get (key_of "hel") (erase (key_of "hello") hel_hello).2
  = get (key_of "hel") hel_hello.
Proof.
  split; [reflexivity|].
  exact (eq_trans (get_erase hel_hello (key_of "hello") (key_of "hel") eq_refl) eq_refl).
Defined.

Lemma erase_twice_witness :
  wf hel_hello = true ∧
  erase (key_of "hello") (erase (key_of "hello") hel_hello).2
  = (false, (erase (key_of "hello") hel_hello).2).
Proof.
  split; [reflexivity|]. apply (erase_twice hel_hello (key_of "hello")). reflexivity.
Defined.

Lemma prefix_erase_was_witness :
  wf hel_hello = true ∧
  prefix (key_of "he") (erase (key_of "hello") hel_hello).2 = true ∧
  prefix (key_of "he") hel_hello = true.
Proof.
  split; [reflexivity|]. split; [reflexivity|].
  apply (prefix_erase_was hel_hello (key_of "hello") (key_of "he")); reflexivity.
Defined.

Lemma insert_erase_minimal_witness :
  minimal hel_hello = true ∧
  minimal (insert (key_of "help") 3%Z hel_hello) = true ∧
  minimal (erase (key_of "hello") hel_hello).2 = true.
Proof.
  split; [reflexivity|].
  split; [apply (insert_erase_minimal hel_hello (key_of "help") 3%Z)
         |apply (insert_erase_minimal hel_hello (key_of "hello") 3%Z)]; reflexivity.
Defined.

Lemma prefix_iff_stored_witness :
  minimal hel_hello = true ∧ key_of "he" ≠ [] ∧
  (prefix (key_of "he") hel_hello = true ↔
   ∃ s, match_ (key_of "he" ++ s) hel_hello = true).
Proof.
  split; [reflexivity|]. split; [discriminate|].
  apply (prefix_iff_stored hel_hello (key_of "he")); [reflexivity|discriminate].
Defined.


Lemma to_string_overwrite_witness :
  wf hel_hello = true ∧ match_ (key_of "hel") hel_hello = true ∧
  to_string (insert (key_of "hel") 9%Z hel_hello) = to_string hel_hello.
Proof.
  split; [reflexivity|]. split; [reflexivity|].
  apply (to_string_overwrite hel_hello (key_of "hel") 9%Z); reflexivity.
Defined.

Lemma prefix_erase_exact_witness :
  wf hel_hello = true ∧ minimal hel_hello = true ∧ key_of "hell" ≠ [] ∧
  (prefix (key_of "hell") (erase (key_of "hello") hel_hello).2 = true ↔
   ∃ s, key_of "hell" ++ s ≠ key_of "hello" ∧
        match_ (key_of "hell" ++ s) hel_hello = true).
Proof.
  split; [reflexivity|]. split; [reflexivity|]. split; [discriminate|].
  apply (prefix_erase_exact hel_hello (key_of "hello") (key_of "hell"));
    [reflexivity|reflexivity|discriminate].
Defined.

Lemma insert_after_erase_witness :
  wf hel_hello = true ∧
  insert (key_of "hello") 5%Z (erase (key_of "hello") hel_hello).2
  = insert (key_of "hello") 5%Z hel_hello.
Proof.
  split; [reflexivity|].
  apply (insert_after_erase hel_hello (key_of "hello") 5%Z). reflexivity.
Defined.

End MoreScenarios.
